(** * The Parseable winston transport of n8n-observability

    A shallow embedding of [ParseableTransport] (n8n-winston-logger.js):
    the conversion of an [info] object into a log entry, the OTLP encoding
    of a batch, and the batching / retry state machine, followed by the
    properties of the transport stated in the repository's specification. *)

From Stdlib Require Import List String Ascii ZArith Lia Bool Arith DecimalString.
Import ListNotations.
Local Open Scope string_scope.
Local Open Scope nat_scope.
Set Warnings "-register-all".

(** ** JavaScript values *)

Module JS.

(** The values a log call can carry.  [VNum z] is an integer-valued
    number (a safe integer, printed in plain decimal digits); strings are
    sequences of bytes.  Objects are association lists of their own
    enumerable properties, in enumeration order, with pairwise distinct
    keys (see [wf_obj]). *)
Inductive value : Type :=
| VNull
| VUndefined
| VBool (b : bool)
| VNum (z : Z)
| VBigInt (z : Z)
| VStr (s : string)
| VArr (vs : list value)
| VObj (kvs : list (string * value)).

Definition obj : Type := list (string * value).

(** What an evaluation ends in: a value or a thrown exception. *)
Inductive error : Type :=
| TypeError (msg : string).

Inductive result (A : Type) : Type :=
| Ok (a : A)
| Throw (e : error).
Arguments Ok {A} a.
Arguments Throw {A} e.

Definition bind {A B : Type} (r : result A) (k : A -> result B) : result B :=
  match r with
  | Ok a => k a
  | Throw e => Throw e
  end.

Notation "x <- r ;; k" := (bind r (fun x => k))
  (at level 61, r at next level, right associativity).

(** *** Property access *)

(** [o[k]]: the own property [k], if any. *)
Fixpoint get (k : string) (o : obj) : option value :=
  match o with
  | [] => None
  | (k', v) :: o' => if String.eqb k k' then Some v else get k o'
  end.

(** The array index a key spells, if it spells one: the decimal digits of
    a number from 0 to 4294967294, with no leading zero. *)
Definition digit_value (c : ascii) : option N :=
  let n := nat_of_ascii c in
  if (48 <=? n) && (n <=? 57) then Some (N.of_nat (n - 48)) else None.

Fixpoint digits_value (s : string) (acc : N) : option N :=
  match s with
  | EmptyString => Some acc
  | String c s' =>
      match digit_value c with
      | Some d => digits_value s' (acc * 10 + d)%N
      | None => None
      end
  end.

Definition array_index (k : string) : option N :=
  match k with
  | EmptyString => None
  | String c EmptyString => digit_value c
  | String c _ =>
      if nat_of_ascii c =? 48 then None
      else
        match digits_value k 0 with
        | Some n => if (n <? 4294967295)%N then Some n else None
        | None => None
        end
  end.

(** Whether the key [k] is enumerated before the key [k'] wherever the two
    were created: array indices come first, in ascending order, and the
    other keys follow in the order of their creation. *)
Definition comes_before (k k' : string) : bool :=
  match array_index k, array_index k' with
  | Some i, Some j => (i <? j)%N
  | Some _, None => true
  | None, _ => false
  end.

(** A new value for the existing property [k], which keeps its place. *)
Fixpoint update (k : string) (v : value) (o : obj) : obj :=
  match o with
  | [] => []
  | (k', v') :: o' =>
      if String.eqb k k' then (k', v) :: o' else (k', v') :: update k v o'
  end.

(** The new property [k], at its place in the enumeration order. *)
Fixpoint insert (k : string) (v : value) (o : obj) : obj :=
  match o with
  | [] => [(k, v)]
  | (k', v') :: o' =>
      if comes_before k k' then (k, v) :: (k', v') :: o'
      else (k', v') :: insert k v o'
  end.

(** The own property [k] defined as [v], as an object literal and a spread
    define it: an existing property keeps its place, a new one takes its
    place in the enumeration order. *)
Definition set (k : string) (v : value) (o : obj) : obj :=
  match get k o with
  | Some _ => update k v o
  | None => insert k v o
  end.

(** [o[k] = v] on a plain object.  The key [__proto__] reaches the setter
    of [Object.prototype], which defines no own property (and, given a
    string or undefined as here, does nothing at all); every other key is
    defined as by [set]. *)
Definition assign (k : string) (v : value) (o : obj) : obj :=
  if String.eqb k "__proto__" then o else set k v o.

(** [{...o, ...src}]: the properties of [src] assigned onto [o] in order. *)
Definition spread (o src : obj) : obj :=
  fold_left (fun acc kv => set (fst kv) (snd kv) acc) src o.

Definition keys (o : obj) : list string := map fst o.

Definition wf_obj (o : obj) : Prop := NoDup (keys o).

(** [arr.includes(k)] on an array of strings. *)
Definition includes (ks : list string) (k : string) : bool :=
  existsb (String.eqb k) ks.

(** *** Strings *)

Definition dquote : ascii := ascii_of_nat 34.
Definition backslash : ascii := ascii_of_nat 92.

Definition upper_ascii (c : ascii) : ascii :=
  let n := nat_of_ascii c in
  if (97 <=? n) && (n <=? 122) then ascii_of_nat (n - 32) else c.

(** [s.toUpperCase()] on the ASCII letters. *)
Fixpoint toUpperCase (s : string) : string :=
  match s with
  | EmptyString => EmptyString
  | String c s' => String (upper_ascii c) (toUpperCase s')
  end.

(** The decimal digits of an integer, as [String(n)] prints them. *)
Definition string_of_Z (z : Z) : string :=
  NilZero.string_of_int (Z.to_int z).

Fixpoint join (sep : string) (l : list string) : string :=
  match l with
  | [] => EmptyString
  | [s] => s
  | s :: l' => s ++ sep ++ join sep l'
  end.

(** [String(v)].  An array prints its elements joined by commas, with
    null and undefined elements printed as nothing. *)
Fixpoint String_ (v : value) : string :=
  match v with
  | VNull => "null"
  | VUndefined => "undefined"
  | VBool true => "true"
  | VBool false => "false"
  | VNum z => string_of_Z z
  | VBigInt z => string_of_Z z
  | VStr s => s
  | VArr vs =>
      join ","
        ((fix elems (l : list value) : list string :=
            match l with
            | [] => []
            | VNull :: l' => EmptyString :: elems l'
            | VUndefined :: l' => EmptyString :: elems l'
            | e :: l' => String_ e :: elems l'
            end) vs)
  | VObj _ => "[object Object]"
  end.

(** *** JSON.stringify *)

Definition hex_digit (n : nat) : ascii :=
  if n <? 10 then ascii_of_nat (48 + n) else ascii_of_nat (87 + n).

(** The escape of one character inside a JSON string literal. *)
Definition escape_char (c : ascii) : string :=
  let n := nat_of_ascii c in
  if n =? 34 then String backslash (String dquote EmptyString)
  else if n =? 92 then String backslash (String backslash EmptyString)
  else if n =? 8 then String backslash "b"
  else if n =? 12 then String backslash "f"
  else if n =? 10 then String backslash "n"
  else if n =? 13 then String backslash "r"
  else if n =? 9 then String backslash "t"
  else if n <? 32 then
    String backslash
      ("u00" ++ String (hex_digit (n / 16)) (String (hex_digit (n mod 16)) EmptyString))
  else String c EmptyString.

Fixpoint escape (s : string) : string :=
  match s with
  | EmptyString => EmptyString
  | String c s' => escape_char c ++ escape s'
  end.

Definition quote (s : string) : string :=
  String dquote (escape s ++ String dquote EmptyString).

(** What [JSON.stringify] ends in: a text, [undefined], or a TypeError. *)
Inductive jres : Type :=
| JText (s : string)
| JUndef
| JThrow (e : error).

Definition bigint_error : error :=
  TypeError "Do not know how to serialize a BigInt".

(** [JSON.stringify(v)]: an undefined array element prints as null, an
    undefined property is left out, a BigInt anywhere throws. *)
Fixpoint stringify (v : value) : jres :=
  match v with
  | VNull => JText "null"
  | VUndefined => JUndef
  | VBool true => JText "true"
  | VBool false => JText "false"
  | VNum z => JText (string_of_Z z)
  | VBigInt _ => JThrow bigint_error
  | VStr s => JText (quote s)
  | VArr vs =>
      match
        (fix elems (l : list value) : result (list string) :=
           match l with
           | [] => Ok []
           | e :: l' =>
               match stringify e with
               | JThrow err => Throw err
               | JUndef => rest <- elems l' ;; Ok ("null" :: rest)
               | JText s => rest <- elems l' ;; Ok (s :: rest)
               end
           end) vs
      with
      | Throw err => JThrow err
      | Ok parts => JText ("[" ++ join "," parts ++ "]")
      end
  | VObj kvs =>
      match
        (fix props (l : list (string * value)) : result (list string) :=
           match l with
           | [] => Ok []
           | (k, e) :: l' =>
               match stringify e with
               | JThrow err => Throw err
               | JUndef => props l'
               | JText s => rest <- props l' ;; Ok ((quote k ++ ":" ++ s) :: rest)
               end
           end) kvs
      with
      | Throw err => JThrow err
      | Ok parts => JText ("{" ++ join "," parts ++ "}")
      end
  end.

(** [typeof v === 'object'] *)
Definition typeof_object (v : value) : bool :=
  match v with
  | VNull | VArr _ | VObj _ => true
  | _ => false
  end.

Definition is_nullish (v : value) : bool :=
  match v with
  | VNull | VUndefined => true
  | _ => false
  end.

End JS.

(** ** The transport *)

Module ParseableTransport.
Import JS.

(** A buffered log entry: the object built by [log]. *)
Definition LogEntry : Type := obj.

(** *** extractMetadata *)

(** The string keys of the exclusion array of [extractMetadata].  The
    array also holds [Symbol.for('level')] and [Symbol.for('message')];
    [Object.entries] yields string keys only, so those two never match. *)
Definition excluded_info_keys : list string :=
  ["level"; "message"; "timestamp"].

(** The loop of [extractMetadata] over [Object.entries(info)], with the
    [metadata] object built so far. *)
Fixpoint extractMetadata_from (entries : obj) (metadata : obj) : result obj :=
  match entries with
  | [] => Ok metadata
  | (key, value) :: rest =>
      if negb (includes excluded_info_keys key) then
        if negb (is_nullish value) then
          if typeof_object value then
            match stringify value with
            | JText s => extractMetadata_from rest (assign key (VStr s) metadata)
            | JUndef => extractMetadata_from rest (assign key VUndefined metadata)
            | JThrow e => Throw e
            end
          else extractMetadata_from rest (assign key (VStr (String_ value)) metadata)
        else extractMetadata_from rest metadata
      else extractMetadata_from rest metadata
  end.

Definition extractMetadata (info : obj) : result obj :=
  extractMetadata_from info [].

(** *** The log entry *)

(** [info.level.toUpperCase()]: only a string has the method. *)
Definition upper_level (info : obj) : result string :=
  match get "level" info with
  | Some (VStr s) => Ok (toUpperCase s)
  | _ => Throw (TypeError "info.level.toUpperCase is not a function")
  end.

Definition prop (k : string) (o : obj) : value :=
  match get k o with
  | Some v => v
  | None => VUndefined
  end.

(** The object literal of [log]; [now] is what
    [new Date().toISOString()] returned. *)
Definition logEntry_of (info : obj) (now : string) : result LogEntry :=
  level <- upper_level info ;;
  metadata <- extractMetadata info ;;
  Ok (spread
        [("p_timestamp", VStr now);
         ("level", VStr level);
         ("message", prop "message" info);
         ("service", VStr "n8n-comprehensive");
         ("logger", VStr "winston")]
        metadata).

(** *** The OTLP encoding of sendToParseable *)

(** [String(new Date(p).getTime() * 1000000)], kept as the expression
    over the entry's [p_timestamp]: how a date string is parsed is the
    host's business. *)
Inductive TimeText : Type :=
| UnixNanoOf (p_timestamp : value).

Record KeyValue : Type := {
  key : string;
  stringValue : string
}.

Record LogRecord : Type := {
  timeUnixNano : TimeText;
  severityText : value;
  body_stringValue : value;
  attributes : list KeyValue
}.

Definition excluded_entry_keys : list string :=
  ["p_timestamp"; "level"; "message"].

Definition attribute_of (kv : string * value) : KeyValue :=
  {| key := fst kv; stringValue := String_ (snd kv) |}.

Definition logRecord_of (log : LogEntry) : LogRecord :=
  {| timeUnixNano := UnixNanoOf (prop "p_timestamp" log);
     severityText := prop "level" log;
     body_stringValue := prop "message" log;
     attributes :=
       map attribute_of
         (filter (fun kv => negb (includes excluded_entry_keys (fst kv))) log) |}.

(** One POST: the routing header and the body.  The resource and the
    scope of the body are constants. *)
Record Request : Type := {
  path : string;
  x_p_stream : string;
  x_p_log_source : string;
  resource_service_name : string;
  scope_name : string;
  scope_version : string;
  logRecords : list LogRecord
}.

Definition otlpRequest (streamName : string) (logs : list LogEntry) : Request :=
  {| path := "/v1/logs";
     x_p_stream := streamName;
     x_p_log_source := "otel-logs";
     resource_service_name := "n8n-comprehensive";
     scope_name := "winston";
     scope_version := "3.0.0";
     logRecords := map logRecord_of logs |}.

(** How a request ends. *)
Inductive outcome : Type :=
| Response (statusCode : Z)
| NetworkError
| RequestTimeout.

(** The promise of [sendToParseable] resolves on a 2xx status only. *)
Definition resolves (o : outcome) : bool :=
  match o with
  | Response statusCode => ((200 <=? statusCode) && (statusCode <? 300))%Z
  | NetworkError => false
  | RequestTimeout => false
  end.

(** *** State *)

(** The fields of the transport object, then the part of the event loop
    the object lives in: [pending] holds, for every send still awaiting
    its end, the [logsToSend] its flush captured; [sent] is every delivery
    attempt so far, as the request [sendToParseable] builds for it.
    [sinceDrain] is a history variable (not a field of the source): the
    entries pushed since the batch was last drained. *)
Record Transport : Type := {
  streamName : string;
  batchSize : nat;
  flushInterval : nat;
  maxRetries : nat;
  batch : list LogEntry;
  retryCount : nat;
  timer : bool;
  pending : list (list LogEntry);
  sent : list Request;
  sinceDrain : list LogEntry
}.

(** The options the constructor reads, [None] for one left out; the two
    numbers are given as natural numbers. *)
Record Options : Type := {
  opt_streamName : option string;
  opt_batchSize : option nat;
  opt_flushInterval : option nat
}.

(** [x || d] on a number: undefined and 0 give the default. *)
Definition number_or (x : option nat) (d : nat) : nat :=
  match x with
  | Some (S n) => S n
  | _ => d
  end.

(** [x || d] on a string: undefined and the empty string give the default. *)
Definition string_or (x : option string) (d : string) : string :=
  match x with
  | Some (String c s) => String c s
  | _ => d
  end.

(** The constructor, [startBatchProcessor] included. *)
Definition new_transport (opts : Options) : Transport :=
  {| streamName := string_or (opt_streamName opts) "n8n-logs";
     batchSize := number_or (opt_batchSize opts) 5;
     flushInterval := number_or (opt_flushInterval opts) 3000;
     maxRetries := 3;
     batch := [];
     retryCount := 0;
     timer := true;
     pending := [];
     sent := [];
     sinceDrain := [] |}.

(** The options [createN8nLogger] passes. *)
Definition n8n_options : Options :=
  {| opt_streamName := Some "n8n-logs";
     opt_batchSize := Some 3;
     opt_flushInterval := Some 2000 |}.

Definition with_batch (b : list LogEntry) (t : Transport) : Transport :=
  {| streamName := streamName t; batchSize := batchSize t;
     flushInterval := flushInterval t; maxRetries := maxRetries t;
     batch := b; retryCount := retryCount t; timer := timer t;
     pending := pending t; sent := sent t; sinceDrain := sinceDrain t |}.

Definition with_retryCount (n : nat) (t : Transport) : Transport :=
  {| streamName := streamName t; batchSize := batchSize t;
     flushInterval := flushInterval t; maxRetries := maxRetries t;
     batch := batch t; retryCount := n; timer := timer t;
     pending := pending t; sent := sent t; sinceDrain := sinceDrain t |}.

Definition with_timer (b : bool) (t : Transport) : Transport :=
  {| streamName := streamName t; batchSize := batchSize t;
     flushInterval := flushInterval t; maxRetries := maxRetries t;
     batch := batch t; retryCount := retryCount t; timer := b;
     pending := pending t; sent := sent t; sinceDrain := sinceDrain t |}.

Definition with_pending (p : list (list LogEntry)) (t : Transport) : Transport :=
  {| streamName := streamName t; batchSize := batchSize t;
     flushInterval := flushInterval t; maxRetries := maxRetries t;
     batch := batch t; retryCount := retryCount t; timer := timer t;
     pending := p; sent := sent t; sinceDrain := sinceDrain t |}.

Definition with_sent (r : list Request) (t : Transport) : Transport :=
  {| streamName := streamName t; batchSize := batchSize t;
     flushInterval := flushInterval t; maxRetries := maxRetries t;
     batch := batch t; retryCount := retryCount t; timer := timer t;
     pending := pending t; sent := r; sinceDrain := sinceDrain t |}.

Definition with_sinceDrain (h : list LogEntry) (t : Transport) : Transport :=
  {| streamName := streamName t; batchSize := batchSize t;
     flushInterval := flushInterval t; maxRetries := maxRetries t;
     batch := batch t; retryCount := retryCount t; timer := timer t;
     pending := pending t; sent := sent t; sinceDrain := h |}.

(** *** flush *)

(** [arr.slice(-n)]: from index [max (length - n) 0] to the end. *)
Definition slice_last {A : Type} (n : nat) (l : list A) : list A :=
  skipn (List.length l - n) l.

(** [flush] up to its [await]: the empty check, the drain of the batch
    into [logsToSend], and the request [sendToParseable] writes. *)
Definition flush_drain (t : Transport) : Transport :=
  match batch t with
  | [] => t
  | _ :: _ =>
      let logsToSend := batch t in
      with_sinceDrain []
        (with_sent (sent t ++ [otlpRequest (streamName t) logsToSend])
           (with_pending (pending t ++ [logsToSend])
              (with_batch [] t)))
  end.

(** [flush] after its [await], once the send of [logsToSend] ended in [o]. *)
Definition flush_settle (o : outcome) (logsToSend : list LogEntry)
    (t : Transport) : Transport :=
  if resolves o then with_retryCount 0 t
  else if retryCount t <? maxRetries t then
    with_batch (slice_last 3 logsToSend ++ batch t)
      (with_retryCount (S (retryCount t)) t)
  else t.

(** *** log, the timer, close *)

Definition push (logEntry : LogEntry) (t : Transport) : Transport :=
  with_sinceDrain (sinceDrain t ++ [logEntry])
    (with_batch (batch t ++ [logEntry]) t).

(** [log(info, callback)]; the callback is only scheduled, never run here. *)
Definition log (info : obj) (now : string) (t : Transport) : result Transport :=
  logEntry <- logEntry_of info now ;;
  let t1 := push logEntry t in
  Ok (if batchSize t1 <=? List.length (batch t1) then flush_drain t1 else t1).

(** The callback [startBatchProcessor] hands to [setInterval]. *)
Definition on_interval (t : Transport) : Transport :=
  if 0 <? List.length (batch t) then flush_drain t else t.

Definition close (t : Transport) : Transport :=
  let t1 := if timer t then with_timer false t else t in
  if 0 <? List.length (batch t1) then flush_drain t1 else t1.

(** *** The event loop *)

(** What can happen to the transport, one at a time: a [log] call, a
    tick of the interval timer, the end of the [i]-th pending send, a
    [flush] call, a [close] call. *)
Inductive action : Type :=
| ALog (info : obj) (now : string)
| ATick
| ASettle (i : nat) (o : outcome)
| AFlush
| AClose.

Fixpoint remove_nth {A : Type} (i : nat) (l : list A) : list A :=
  match i, l with
  | _, [] => []
  | 0, _ :: l' => l'
  | S i', x :: l' => x :: remove_nth i' l'
  end.

(** One action.  A cleared interval never fires, so a tick finds the
    transport unchanged once [timer] is off; a [log] that throws leaves
    the transport as it was. *)
Definition exec (a : action) (t : Transport) : Transport :=
  match a with
  | ALog info now =>
      match log info now t with
      | Ok t' => t'
      | Throw _ => t
      end
  | ATick => if timer t then on_interval t else t
  | ASettle i o =>
      match nth_error (pending t) i with
      | Some logsToSend =>
          flush_settle o logsToSend (with_pending (remove_nth i (pending t)) t)
      | None => t
      end
  | AFlush => flush_drain t
  | AClose => close t
  end.

Definition run (acts : list action) (t : Transport) : Transport :=
  fold_left (fun t' a => exec a t') acts t.

(** A whole [flush] with nothing in between: the drain, then the end of
    its own send in [o]. *)
Definition flush (o : outcome) (t : Transport) : Transport :=
  match batch t with
  | [] => t
  | _ :: _ => exec (ASettle (List.length (pending t)) o) (flush_drain t)
  end.

(** The entries the [log] calls among [acts] push, in order. *)
Fixpoint accepted (acts : list action) : list LogEntry :=
  match acts with
  | [] => []
  | ALog info now :: rest =>
      match logEntry_of info now with
      | Ok e => e :: accepted rest
      | Throw _ => accepted rest
      end
  | _ :: rest => accepted rest
  end.

End ParseableTransport.

(** ** Sample inputs *)

Module Samples.
Import JS ParseableTransport.
Local Open Scope list_scope.

(** The [info] of [logger.info(n)]. *)
Definition event (n : Z) : obj :=
  [("level", VStr "info"); ("message", VNum n)].

Definition entry (n : Z) (now : string) : LogEntry :=
  [("p_timestamp", VStr now); ("level", VStr "INFO"); ("message", VNum n);
   ("service", VStr "n8n-comprehensive"); ("logger", VStr "winston")].

(** The transport of [createN8nLogger], just constructed. *)
Definition fresh : Transport := new_transport n8n_options.

(** Three events fill the batch and are flushed; the send and its two
    timer-driven retries all fail. *)
Definition three_failures : list action :=
  [ALog (event 1) "t1"; ALog (event 2) "t2"; ALog (event 3) "t3";
   ASettle 0 NetworkError;
   ATick; ASettle 0 (Response 503);
   ATick; ASettle 0 RequestTimeout].

Definition exhausted : Transport := run three_failures fresh.

(** The [info] of [logger.error("boom", {code: 42, nested: {a: 1}})],
    with or without the timestamp the logger's format adds. *)
Definition boom (timestamp : option value) : obj :=
  [("level", VStr "ERROR"); ("message", VStr "boom")]
  ++ match timestamp with
     | Some ts => [("timestamp", ts)]
     | None => []
     end
  ++ [("code", VNum 42); ("nested", VObj [("a", VNum 1)])].

(** The text [{"a":1}]. *)
Definition nested_text : string :=
  "{" ++ String dquote ("a" ++ String dquote ":1}").

Definition boom_entry (now : string) : LogEntry :=
  [("p_timestamp", VStr now); ("level", VStr "ERROR"); ("message", VStr "boom");
   ("service", VStr "n8n-comprehensive"); ("logger", VStr "winston");
   ("code", VStr "42"); ("nested", VStr nested_text)].

(** Fields that are null, that reuse a key of the entry, that are keyed
    __proto__, that name the service, and that hold a BigInt inside an
    object. *)
Definition with_null : obj :=
  [("level", VStr "info"); ("message", VStr "m"); ("user", VNull)].

Definition with_p_timestamp : obj :=
  [("level", VStr "info"); ("message", VStr "m"); ("p_timestamp", VStr "noon")].

Definition with_proto : obj :=
  [("level", VStr "info"); ("message", VStr "m"); ("__proto__", VStr "p")].


Definition with_bigint : obj :=
  [("level", VStr "info"); ("message", VStr "m");
   ("data", VObj [("n", VBigInt 10)])].

(** [len] log calls, for the events numbered from [first] on. *)
Definition feed (first len : nat) : list action :=
  map (fun n => ALog (event (Z.of_nat n)) "t") (seq first len).

Definition entries (first len : nat) : list LogEntry :=
  map (fun n => entry (Z.of_nat n) "t") (seq first len).

(** No options: the defaults of the constructor. *)
Definition default_options : Options :=
  {| opt_streamName := None; opt_batchSize := None; opt_flushInterval := None |}.

Definition wide_options : Options :=
  {| opt_streamName := None; opt_batchSize := Some 20; opt_flushInterval := None |}.

(** Five events, flushed by a tick of the timer; their send is pending. *)
Definition five_in_flight : Transport :=
  run (feed 1 5 ++ [ATick]) (new_transport wide_options).

End Samples.

(** ** Vocabulary of the statements *)

Module Terms.
Import JS ParseableTransport.
Local Open Scope list_scope.

(** The sends of [sends] ending one after the other, each in its outcome. *)
Definition settle_all (sends : list (outcome * list LogEntry)) (t : Transport)
    : Transport :=
  fold_left (fun t' s => flush_settle (fst s) (snd s) t') sends t.

(** What one action does to the batch: either it drains it, writing one
    request for all of it, or it writes none, and then the batch only grows
    at the back by the entry accepted and at the front by entries put back
    from the snapshot of a pending send. *)
Definition drains (a : action) (t : Transport) : Prop :=
  exists logs,
    logs <> []
    /\ logs = batch t ++ accepted [a]
    /\ sent (exec a t) = sent t ++ [otlpRequest (streamName t) logs]
    /\ pending (exec a t) = pending t ++ [logs]
    /\ batch (exec a t) = []
    /\ sinceDrain (exec a t) = [].

Definition keeps (a : action) (t : Transport) : Prop :=
  sent (exec a t) = sent t
  /\ exists requeued,
       batch (exec a t) = requeued ++ batch t ++ accepted [a]
       /\ sinceDrain (exec a t) = sinceDrain t ++ accepted [a]
       /\ (forall e, In e requeued ->
             exists snap, In snap (pending t) /\ In e (slice_last 3 snap))
       /\ (forall snap, In snap (pending (exec a t)) -> In snap (pending t)).

(** The string [extractMetadata] stores for a field value: the JSON text
    of an object or an array, [String(v)] of anything else. *)
Definition field_text (v : value) : option string :=
  if typeof_object v then
    match stringify v with
    | JText s => Some s
    | _ => None
    end
  else Some (String_ v).

(** Every field [extractMetadata] converts can be converted: no object or
    array among them makes [JSON.stringify] throw. *)
Definition serialisable (info : obj) : bool :=
  forallb
    (fun kv =>
       includes excluded_info_keys (fst kv)
       || is_nullish (snd kv)
       || negb (typeof_object (snd kv))
       || match stringify (snd kv) with
          | JThrow _ => false
          | _ => true
          end)
    info.

Definition has_string_level (info : obj) : bool :=
  match get "level" info with
  | Some (VStr _) => true
  | _ => false
  end.

Definition loggable (info : obj) : bool :=
  has_string_level info && serialisable info.

End Terms.

(** ** The logger's convenience methods *)

Module N8nLogger.
Import JS ParseableTransport.
Local Open Scope list_scope.

(** One call of [logger.info], [logger.error] or [logger.debug]: the
    level, the message and the metadata object handed over. *)
Record LoggerCall : Type := {
  call_level : string;
  call_message : string;
  call_meta : obj
}.

(** The [metadata = {}] parameter: [None] is the argument left out. *)
Definition metadata_or_empty (metadata : option obj) : obj :=
  match metadata with
  | Some m => m
  | None => []
  end.

(** [error.message], [error.name], [error.stack]: reading a property of
    null or undefined throws, an object gives its property, and any other
    value has none of the three. *)
Definition error_member (error : value) (k : string) : result value :=
  match error with
  | VNull | VUndefined =>
      Throw (TypeError "Cannot read properties of undefined")
  | VObj kvs => Ok (prop k kvs)
  | _ => Ok VUndefined
  end.

Definition workflow_started (workflowId workflowName executionId : value)
    (metadata : option obj) : LoggerCall :=
  {| call_level := "info";
     call_message := "Workflow execution started";
     call_meta :=
       spread
         [("event_type", VStr "workflow_started");
          ("workflow_id", workflowId);
          ("workflow_name", workflowName);
          ("execution_id", executionId)]
         (metadata_or_empty metadata) |}.

Definition workflow_completed (workflowId workflowName executionId duration : value)
    (metadata : option obj) : LoggerCall :=
  {| call_level := "info";
     call_message := "Workflow execution completed";
     call_meta :=
       spread
         [("event_type", VStr "workflow_completed");
          ("workflow_id", workflowId);
          ("workflow_name", workflowName);
          ("execution_id", executionId);
          ("duration_seconds", duration)]
         (metadata_or_empty metadata) |}.

Definition workflow_failed (workflowId workflowName executionId error duration : value)
    (metadata : option obj) : result LoggerCall :=
  error_message <- error_member error "message" ;;
  error_name <- error_member error "name" ;;
  error_stack <- error_member error "stack" ;;
  Ok {| call_level := "error";
        call_message := "Workflow execution failed";
        call_meta :=
          spread
            [("event_type", VStr "workflow_failed");
             ("workflow_id", workflowId);
             ("workflow_name", workflowName);
             ("execution_id", executionId);
             ("duration_seconds", duration);
             ("error_message", error_message);
             ("error_name", error_name);
             ("error_stack", error_stack)]
            (metadata_or_empty metadata) |}.

Definition node_started (workflowId executionId nodeType nodeName : value)
    (metadata : option obj) : LoggerCall :=
  {| call_level := "debug";
     call_message := "Node execution started";
     call_meta :=
       spread
         [("event_type", VStr "node_started");
          ("workflow_id", workflowId);
          ("execution_id", executionId);
          ("node_type", nodeType);
          ("node_name", nodeName)]
         (metadata_or_empty metadata) |}.

Definition node_completed (workflowId executionId nodeType nodeName duration : value)
    (metadata : option obj) : LoggerCall :=
  {| call_level := "debug";
     call_message := "Node execution completed";
     call_meta :=
       spread
         [("event_type", VStr "node_completed");
          ("workflow_id", workflowId);
          ("execution_id", executionId);
          ("node_type", nodeType);
          ("node_name", nodeName);
          ("duration_seconds", duration)]
         (metadata_or_empty metadata) |}.

Definition node_failed (workflowId executionId nodeType nodeName error duration : value)
    (metadata : option obj) : result LoggerCall :=
  error_message <- error_member error "message" ;;
  error_name <- error_member error "name" ;;
  error_stack <- error_member error "stack" ;;
  Ok {| call_level := "error";
        call_message := "Node execution failed";
        call_meta :=
          spread
            [("event_type", VStr "node_failed");
             ("workflow_id", workflowId);
             ("execution_id", executionId);
             ("node_type", nodeType);
             ("node_name", nodeName);
             ("duration_seconds", duration);
             ("error_message", error_message);
             ("error_name", error_name);
             ("error_stack", error_stack)]
            (metadata_or_empty metadata) |}.

(** [JSON.stringify(headers)] with the [headers = {}] parameter. *)
Definition headers_text (headers : option value) : result value :=
  let h := match headers with
           | Some VUndefined | None => VObj []
           | Some v => v
           end in
  match stringify h with
  | JText s => Ok (VStr s)
  | JUndef => Ok VUndefined
  | JThrow e => Throw e
  end.

Definition http_request (method url : value) (headers : option value)
    (metadata : option obj) : result LoggerCall :=
  http_headers <- headers_text headers ;;
  Ok {| call_level := "info";
        call_message := "HTTP request made";
        call_meta :=
          spread
            [("event_type", VStr "http_request");
             ("http_method", method);
             ("http_url", url);
             ("http_headers", http_headers)]
            (metadata_or_empty metadata) |}.

Definition http_response (method url statusCode duration : value)
    (metadata : option obj) : LoggerCall :=
  {| call_level := "info";
     call_message := "HTTP response received";
     call_meta :=
       spread
         [("event_type", VStr "http_response");
          ("http_method", method);
          ("http_url", url);
          ("http_status", statusCode);
          ("duration_seconds", duration)]
         (metadata_or_empty metadata) |}.

(** The eight convenience methods with their arguments, and what each
    hands to the logger. *)
Inductive convenience : Type :=
| WorkflowStarted (workflowId workflowName executionId : value)
    (metadata : option obj)
| WorkflowCompleted (workflowId workflowName executionId duration : value)
    (metadata : option obj)
| WorkflowFailed (workflowId workflowName executionId error duration : value)
    (metadata : option obj)
| NodeStarted (workflowId executionId nodeType nodeName : value)
    (metadata : option obj)
| NodeCompleted (workflowId executionId nodeType nodeName duration : value)
    (metadata : option obj)
| NodeFailed (workflowId executionId nodeType nodeName error duration : value)
    (metadata : option obj)
| HttpRequest (method url : value) (headers : option value)
    (metadata : option obj)
| HttpResponse (method url statusCode duration : value)
    (metadata : option obj).

Definition invoke (c : convenience) : result LoggerCall :=
  match c with
  | WorkflowStarted w n x m => Ok (workflow_started w n x m)
  | WorkflowCompleted w n x d m => Ok (workflow_completed w n x d m)
  | WorkflowFailed w n x e d m => workflow_failed w n x e d m
  | NodeStarted w x ty n m => Ok (node_started w x ty n m)
  | NodeCompleted w x ty n d m => Ok (node_completed w x ty n d m)
  | NodeFailed w x ty n e d m => node_failed w x ty n e d m
  | HttpRequest me u h m => http_request me u h m
  | HttpResponse me u st d m => Ok (http_response me u st d m)
  end.

Definition metadata_of (c : convenience) : obj :=
  metadata_or_empty
    match c with
    | WorkflowStarted _ _ _ m => m
    | WorkflowCompleted _ _ _ _ m => m
    | WorkflowFailed _ _ _ _ _ m => m
    | NodeStarted _ _ _ _ m => m
    | NodeCompleted _ _ _ _ _ m => m
    | NodeFailed _ _ _ _ _ _ m => m
    | HttpRequest _ _ _ m => m
    | HttpResponse _ _ _ _ m => m
    end.

(** The [event_type] each method writes. *)
Definition event_type_of (c : convenience) : string :=
  match c with
  | WorkflowStarted _ _ _ _ => "workflow_started"
  | WorkflowCompleted _ _ _ _ _ => "workflow_completed"
  | WorkflowFailed _ _ _ _ _ _ => "workflow_failed"
  | NodeStarted _ _ _ _ _ => "node_started"
  | NodeCompleted _ _ _ _ _ _ => "node_completed"
  | NodeFailed _ _ _ _ _ _ _ => "node_failed"
  | HttpRequest _ _ _ _ => "http_request"
  | HttpResponse _ _ _ _ _ => "http_response"
  end.

(** The [error] argument of the two methods that read one. *)
Definition error_of (c : convenience) : option value :=
  match c with
  | WorkflowFailed _ _ _ e _ _ => Some e
  | NodeFailed _ _ _ _ e _ _ => Some e
  | _ => None
  end.

End N8nLogger.

(** ** Further vocabulary *)

Module Predicates.
Import JS ParseableTransport Terms.
Local Open Scope list_scope.

(** The fields [extractMetadata] converts: not excluded, not null, not
    undefined. *)
Definition copied (kv : string * value) : bool :=
  negb (includes excluded_info_keys (fst kv)) && negb (is_nullish (snd kv)).

(** The fields it stores: the converted ones, but for the key [__proto__]. *)
Definition kept (kv : string * value) : bool :=
  copied kv && negb (String.eqb (fst kv) "__proto__").

(** Keys in the order an object enumerates them: no key is listed after
    one it comes before. *)
Fixpoint enumeration_ordered (l : list string) : Prop :=
  match l with
  | [] => True
  | k :: l' =>
      (forall k', In k' l' -> comes_before k' k = false)
      /\ enumeration_ordered l'
  end.

(** What [extractMetadata] stores for a copied field. *)
Definition stored (kv : string * value) : string * value :=
  (fst kv,
   match field_text (snd kv) with
   | Some s => VStr s
   | None => VUndefined
   end).

(** A BigInt somewhere inside a value. *)
Fixpoint has_bigint (v : value) : bool :=
  match v with
  | VBigInt _ => true
  | VArr vs =>
      (fix any (l : list value) : bool :=
         match l with
         | [] => false
         | e :: l' => has_bigint e || any l'
         end) vs
  | VObj kvs =>
      (fix any (l : list (string * value)) : bool :=
         match l with
         | [] => false
         | (_, e) :: l' => has_bigint e || any l'
         end) kvs
  | _ => false
  end.

(** A copied field that is an object or an array with a BigInt inside. *)
Definition unserialisable_field (kv : string * value) : bool :=
  copied kv && typeof_object (snd kv) && has_bigint (snd kv).

(** No send ends in a failure. *)
Definition no_failure (acts : list action) : bool :=
  forallb
    (fun a => match a with
              | ASettle _ o => resolves o
              | _ => true
              end)
    acts.

Definition is_close (a : action) : bool :=
  match a with
  | AClose => true
  | _ => false
  end.

(** The records of all requests so far, in the order they were sent. *)
Definition records_sent (t : Transport) : list LogRecord :=
  List.concat (map logRecords (sent t)).

(** The entries an action puts back at the front of the batch: the last
    three of the snapshot of a send that failed within the retry budget. *)
Definition requeued_by (a : action) (t : Transport) : list LogEntry :=
  match a with
  | ASettle i o =>
      match nth_error (pending t) i with
      | Some logsToSend =>
          if resolves o then []
          else if retryCount t <? maxRetries t then slice_last 3 logsToSend
          else []
      | None => []
      end
  | _ => []
  end.

(** The entries the actions [acts] put back from [t] on, the latest first. *)
Fixpoint requeued_in (acts : list action) (t : Transport) : list LogEntry :=
  match acts with
  | [] => []
  | a :: rest => requeued_in rest (exec a t) ++ requeued_by a t
  end.

(** The entries put back since the batch was last drained: [front] holds
    them up to the state [t], and an action that writes a request, draining
    the batch, starts the count again. *)
Fixpoint requeued_since_drain (front : list LogEntry) (acts : list action)
    (t : Transport) : list LogEntry :=
  match acts with
  | [] => front
  | a :: rest =>
      requeued_since_drain
        (if List.length (sent (exec a t)) =? List.length (sent t)
         then requeued_by a t ++ front
         else [])
        rest (exec a t)
  end.

(** Everything in the batch, in a pending snapshot or in a request sent
    comes from the entries [known]. *)
Definition accounted (known : list LogEntry) (t : Transport) : Prop :=
  (forall e, In e (batch t) -> In e known)
  /\ (forall snap e, In snap (pending t) -> In e snap -> In e known)
  /\ (forall r rec, In r (sent t) -> In rec (logRecords r) ->
        exists e, In e known /\ rec = logRecord_of e).

(** Every pending snapshot is non-empty and its request is among those
    sent; no request sent is empty, and each names the stream and the
    fixed path and log source. *)
Definition requests_well_formed (t : Transport) : Prop :=
  (forall snap, In snap (pending t) ->
     snap <> [] /\ In (otlpRequest (streamName t) snap) (sent t))
  /\ (forall r, In r (sent t) ->
        logRecords r <> []
        /\ x_p_stream r = streamName t
        /\ path r = "/v1/logs"
        /\ x_p_log_source r = "otel-logs").

End Predicates.

(** ** Properties *)

Import JS ParseableTransport Terms N8nLogger Predicates.
Local Open Scope list_scope.

(** *** Lists *)

Lemma slice_last_short {A : Type} (n : nat) (l : list A) :
  List.length l <= n -> slice_last n l = l.
Proof.
  intros Hlen. unfold slice_last.
  replace (List.length l - n) with 0 by lia. reflexivity.
Qed.

Lemma slice_last_split {A : Type} (n : nat) (l : list A) :
  l = firstn (List.length l - n) l ++ slice_last n l.
Proof.
  unfold slice_last. symmetry. apply firstn_skipn.
Qed.

Lemma slice_last_length {A : Type} (n : nat) (l : list A) :
  List.length (slice_last n l) = Nat.min n (List.length l).
Proof.
  unfold slice_last. rewrite length_skipn. lia.
Qed.

Lemma slice_last_nonempty {A : Type} (n : nat) (l : list A) :
  l <> [] -> 0 < n -> slice_last n l <> [].
Proof.
  intros Hl Hn Hnil.
  apply (f_equal (@List.length A)) in Hnil.
  rewrite slice_last_length in Hnil. simpl in Hnil.
  destruct l as [| x l']; [congruence | simpl in Hnil; lia].
Qed.

Lemma slice_last_idem {A : Type} (n : nat) (l : list A) :
  slice_last n (slice_last n l) = slice_last n l.
Proof.
  apply slice_last_short. rewrite slice_last_length. lia.
Qed.

Lemma slice_last_incl {A : Type} (n : nat) (l : list A) (x : A) :
  In x (slice_last n l) -> In x l.
Proof.
  intros Hin. rewrite (slice_last_split n l). apply in_or_app. now right.
Qed.

Lemma nth_error_snoc {A : Type} (l : list A) (x : A) :
  nth_error (l ++ [x]) (List.length l) = Some x.
Proof.
  induction l as [| y l IH]; simpl; auto.
Qed.

Lemma remove_nth_snoc {A : Type} (l : list A) (x : A) :
  remove_nth (List.length l) (l ++ [x]) = l.
Proof.
  induction l as [| y l IH]; simpl; [reflexivity | now rewrite IH].
Qed.

Lemma remove_nth_incl {A : Type} (i : nat) (l : list A) (x : A) :
  In x (remove_nth i l) -> In x l.
Proof.
  revert i. induction l as [| y l IH]; intros i Hin.
  - destruct i; simpl in Hin; contradiction.
  - destruct i as [| i']; simpl in Hin.
    + now right.
    + destruct Hin as [Heq | Hin]; [now left | right; eauto].
Qed.

(** *** The two halves of flush *)

Lemma flush_drain_nonempty (t : Transport) :
  batch t <> [] ->
  flush_drain t =
    with_sinceDrain []
      (with_sent (sent t ++ [otlpRequest (streamName t) (batch t)])
         (with_pending (pending t ++ [batch t]) (with_batch [] t))).
Proof.
  intros Hne. unfold flush_drain.
  destruct (batch t) as [| e b] eqn:Hb; [congruence | reflexivity].
Qed.

Lemma flush_drain_empty (t : Transport) :
  batch t = [] -> flush_drain t = t.
Proof.
  intros Hb. unfold flush_drain. now rewrite Hb.
Qed.

Lemma flush_settle_success (o : outcome) (logsToSend : list LogEntry) (t : Transport) :
  resolves o = true -> flush_settle o logsToSend t = with_retryCount 0 t.
Proof.
  intros Ho. unfold flush_settle. now rewrite Ho.
Qed.

Lemma flush_settle_retry (o : outcome) (logsToSend : list LogEntry) (t : Transport) :
  resolves o = false -> retryCount t < maxRetries t ->
  flush_settle o logsToSend t =
    with_batch (slice_last 3 logsToSend ++ batch t)
      (with_retryCount (S (retryCount t)) t).
Proof.
  intros Ho Hlt. unfold flush_settle. rewrite Ho.
  apply Nat.ltb_lt in Hlt. now rewrite Hlt.
Qed.

Lemma flush_settle_exhausted (o : outcome) (logsToSend : list LogEntry) (t : Transport) :
  resolves o = false -> maxRetries t <= retryCount t ->
  flush_settle o logsToSend t = t.
Proof.
  intros Ho Hge. unfold flush_settle. rewrite Ho.
  apply Nat.ltb_ge in Hge. now rewrite Hge.
Qed.

(** A whole flush of a non-empty batch: its own send is the last pending
    one, and settling it leaves [pending] as it was. *)
Lemma flush_nonempty (o : outcome) (t : Transport) :
  batch t <> [] ->
  flush o t =
    flush_settle o (batch t)
      (with_sinceDrain []
         (with_sent (sent t ++ [otlpRequest (streamName t) (batch t)])
            (with_batch [] t))).
Proof.
  intros Hne. unfold flush.
  destruct (batch t) as [| e b] eqn:Hb; [congruence |].
  rewrite flush_drain_nonempty by (rewrite Hb; discriminate).
  unfold exec. cbn [pending with_sinceDrain with_sent with_pending with_batch].
  rewrite nth_error_snoc, remove_nth_snoc, Hb.
  destruct t; reflexivity.
Qed.

Lemma flush_empty (o : outcome) (t : Transport) :
  batch t = [] -> flush o t = t.
Proof.
  intros Hb. unfold flush. now rewrite Hb.
Qed.

(** A failed flush within the retry budget. *)
Lemma flush_retry (o : outcome) (t : Transport) :
  batch t <> [] -> resolves o = false -> retryCount t < maxRetries t ->
  batch (flush o t) = slice_last 3 (batch t)
  /\ retryCount (flush o t) = S (retryCount t)
  /\ maxRetries (flush o t) = maxRetries t
  /\ streamName (flush o t) = streamName t
  /\ pending (flush o t) = pending t
  /\ sent (flush o t) = sent t ++ [otlpRequest (streamName t) (batch t)].
Proof.
  intros Hne Ho Hlt.
  rewrite flush_nonempty by assumption.
  rewrite flush_settle_retry by (cbn; assumption).
  cbn. rewrite app_nil_r. repeat split; reflexivity.
Qed.

(** A failed flush once the budget is used up. *)
Lemma flush_exhausted (o : outcome) (t : Transport) :
  batch t <> [] -> resolves o = false -> maxRetries t <= retryCount t ->
  batch (flush o t) = []
  /\ retryCount (flush o t) = retryCount t
  /\ pending (flush o t) = pending t
  /\ sent (flush o t) = sent t ++ [otlpRequest (streamName t) (batch t)].
Proof.
  intros Hne Ho Hge.
  rewrite flush_nonempty by assumption.
  rewrite flush_settle_exhausted by (cbn; assumption).
  cbn. repeat split; reflexivity.
Qed.

(** *** The retry counter *)

(** Only the end of a send touches [retryCount] and [maxRetries]. *)
Lemma exec_maxRetries (a : action) (t : Transport) :
  maxRetries (exec a t) = maxRetries t.
Proof.
  destruct a as [info now | | i o | |]; simpl.
  - unfold log. destruct (logEntry_of info now) as [e | err]; simpl; [| reflexivity].
    destruct (_ <=? _); [| reflexivity].
    unfold flush_drain. simpl. now destruct (batch t ++ [e]).
  - destruct (timer t); [| reflexivity]. unfold on_interval.
    destruct (_ <? _); [| reflexivity].
    unfold flush_drain. now destruct (batch t).
  - destruct (nth_error (pending t) i); [| reflexivity].
    unfold flush_settle. destruct (resolves o); [reflexivity |].
    simpl. now destruct (_ <? _).
  - unfold flush_drain. now destruct (batch t).
  - unfold close. destruct (timer t); simpl;
      (destruct (_ <? _); [| reflexivity]); unfold flush_drain; simpl;
      now destruct (batch t).
Qed.

Lemma flush_drain_retryCount (t : Transport) :
  retryCount (flush_drain t) = retryCount t.
Proof.
  unfold flush_drain. now destruct (batch t).
Qed.

Lemma flush_settle_bounded (o : outcome) (logsToSend : list LogEntry) (t : Transport) :
  retryCount t <= maxRetries t ->
  retryCount (flush_settle o logsToSend t) <= maxRetries (flush_settle o logsToSend t).
Proof.
  intros Hle. unfold flush_settle.
  destruct (resolves o); [simpl; lia |].
  destruct (retryCount t <? maxRetries t) eqn:Hlt; [| assumption].
  apply Nat.ltb_lt in Hlt. simpl. lia.
Qed.

Lemma exec_bounded (a : action) (t : Transport) :
  retryCount t <= maxRetries t ->
  retryCount (exec a t) <= maxRetries (exec a t).
Proof.
  intros Hle. destruct a as [info now | | i o | |]; simpl.
  - unfold log. destruct (logEntry_of info now) as [e | err]; simpl; [| assumption].
    destruct (_ <=? _); [| assumption].
    unfold flush_drain. simpl. now destruct (batch t ++ [e]).
  - destruct (timer t); [| assumption]. unfold on_interval.
    destruct (_ <? _); [| assumption].
    unfold flush_drain. now destruct (batch t).
  - destruct (nth_error (pending t) i); [| assumption].
    now apply flush_settle_bounded.
  - unfold flush_drain. now destruct (batch t).
  - unfold close. destruct (timer t); simpl;
      (destruct (_ <? _); [| assumption]); unfold flush_drain; simpl;
      now destruct (batch t).
Qed.

(** The counter of a constructed transport never exceeds [maxRetries]. *)
Lemma retryCount_bounded (opts : Options) (acts : list action) :
  retryCount (run acts (new_transport opts))
  <= maxRetries (run acts (new_transport opts)).
Proof.
  unfold run.
  assert (Hinit : retryCount (new_transport opts) <= maxRetries (new_transport opts))
    by (simpl; lia).
  revert Hinit. generalize (new_transport opts).
  induction acts as [| a acts IH]; intros t Hle; simpl; [assumption |].
  apply IH. now apply exec_bounded.
Qed.

(** C1 (as amended).  When a send fails and the retry counter has reached
    [maxRetries], the flush leaves the transport as it finds it: nothing of
    the drained snapshot is put back into the shared batch, and the counter
    keeps its value instead of going back to zero. *)
Theorem terminal_failure_drops_snapshot :
  forall (o : outcome) (logsToSend : list LogEntry) (t : Transport),
    resolves o = false ->
    maxRetries t <= retryCount t ->
    batch (flush_settle o logsToSend t) = batch t
    /\ retryCount (flush_settle o logsToSend t) = retryCount t
    /\ flush_settle o logsToSend t = t.
Proof.
  intros o logsToSend t Ho Hge.
  rewrite flush_settle_exhausted by assumption. auto.
Qed.

Lemma terminal_failure_drops_snapshot_witness :
  resolves NetworkError = false
  /\ maxRetries Samples.exhausted <= retryCount Samples.exhausted
  /\ batch (flush_settle NetworkError [Samples.entry 1 "t1"] Samples.exhausted)
     = batch Samples.exhausted.
Proof.
  split; [reflexivity |].
  split; [vm_compute; lia |].
  apply (terminal_failure_drops_snapshot NetworkError [Samples.entry 1 "t1"]
           Samples.exhausted);
    [reflexivity | vm_compute; lia].
Defined.

(** C1 (as stated) fails: after three failed sends the counter of the
    transport equals [maxRetries]; the fourth failure drops the snapshot
    and leaves the counter at 3, and so does a failure met with the counter
    at 4. *)
Lemma terminal_failure_counter_not_reset :
  retryCount Samples.exhausted = 3
  /\ maxRetries Samples.exhausted = 3
  /\ batch Samples.exhausted <> []
  /\ batch (flush NetworkError Samples.exhausted) = []
  /\ retryCount (flush NetworkError Samples.exhausted) = 3
  /\ retryCount (flush NetworkError (with_retryCount 4 Samples.exhausted)) = 4
  /\ ~ (forall o logsToSend t,
          resolves o = false -> maxRetries t < retryCount t ->
          retryCount (flush_settle o logsToSend t) = 0).
Proof.
  repeat split; try (vm_compute; congruence).
  intros Hclaim.
  specialize (Hclaim NetworkError [] (with_retryCount 4 Samples.exhausted)).
  vm_compute in Hclaim.
  assert (H : 4 = 0) by (apply Hclaim; [reflexivity | lia]).
  discriminate.
Qed.

(** C5.  When a send fails and the retry budget is not used up, the last
    three entries of the drained snapshot (all of it when it holds at most
    three), in their order, go to the front of the shared batch, before
    whatever the batch holds by then; the older entries of the snapshot are
    not put back. *)
Theorem failed_send_requeues_last_three :
  forall (o : outcome) (logsToSend : list LogEntry) (t : Transport),
    resolves o = false ->
    retryCount t < maxRetries t ->
    batch (flush_settle o logsToSend t) = slice_last 3 logsToSend ++ batch t
    /\ retryCount (flush_settle o logsToSend t) = S (retryCount t)
    /\ (forall i, nth_error (pending t) i = Some logsToSend ->
        batch (exec (ASettle i o) t) = slice_last 3 logsToSend ++ batch t)
    /\ (List.length logsToSend <= 3 -> slice_last 3 logsToSend = logsToSend)
    /\ (3 < List.length logsToSend ->
        exists older,
          older <> []
          /\ logsToSend = older ++ slice_last 3 logsToSend
          /\ List.length (slice_last 3 logsToSend) = 3).
Proof.
  intros o logsToSend t Ho Hlt.
  rewrite flush_settle_retry by assumption. simpl.
  repeat split.
  - intros i Hnth. rewrite Hnth. now rewrite flush_settle_retry.
  - apply slice_last_short.
  - intros Hlen. exists (firstn (List.length logsToSend - 3) logsToSend).
    repeat split.
    + intros Hnil. apply (f_equal (@List.length LogEntry)) in Hnil.
      rewrite length_firstn in Hnil. simpl in Hnil. lia.
    + apply slice_last_split.
    + rewrite slice_last_length. lia.
Qed.

Lemma failed_send_requeues_last_three_witness :
  resolves (Response 500) = false
  /\ retryCount Samples.fresh < maxRetries Samples.fresh
  /\ batch (flush_settle (Response 500)
              [Samples.entry 1 "t1"; Samples.entry 2 "t2"; Samples.entry 3 "t3";
               Samples.entry 4 "t4"; Samples.entry 5 "t5"]
              (push (Samples.entry 6 "t6") Samples.fresh))
     = [Samples.entry 3 "t3"; Samples.entry 4 "t4"; Samples.entry 5 "t5";
        Samples.entry 6 "t6"].
Proof.
  split; [reflexivity |].
  split; [vm_compute; lia |].
  apply (failed_send_requeues_last_three (Response 500)
           [Samples.entry 1 "t1"; Samples.entry 2 "t2"; Samples.entry 3 "t3";
            Samples.entry 4 "t4"; Samples.entry 5 "t5"]
           (push (Samples.entry 6 "t6") Samples.fresh));
    [reflexivity | vm_compute; lia].
Defined.

Lemma flush_settle_maxRetries (o : outcome) (logsToSend : list LogEntry) (t : Transport) :
  maxRetries (flush_settle o logsToSend t) = maxRetries t.
Proof.
  unfold flush_settle. destruct (resolves o); [reflexivity |].
  now destruct (_ <? _).
Qed.

Lemma settle_all_failures (sends : list (outcome * list LogEntry)) (t : Transport) :
  Forall (fun s => resolves (fst s) = false) sends ->
  retryCount t + List.length sends <= maxRetries t ->
  retryCount (settle_all sends t) = retryCount t + List.length sends
  /\ maxRetries (settle_all sends t) = maxRetries t.
Proof.
  revert t. induction sends as [| [o l] sends IH]; intros t Hall Hle; simpl in *.
  - split; [lia | reflexivity].
  - inversion Hall as [| s ss Ho Hall']; subst. simpl in Ho.
    destruct (IH (flush_settle o l t) Hall') as [Hrc Hmax].
    + rewrite flush_settle_maxRetries, flush_settle_retry by (assumption || lia).
      simpl. lia.
    + unfold settle_all in *. rewrite Hrc, Hmax.
      rewrite flush_settle_maxRetries, flush_settle_retry by (assumption || lia).
      simpl. split; [lia | reflexivity].
Qed.

(** C6.  A send answered with a status from 200 to 299 sets the retry
    counter to zero; so after [n] failed sends in a row, [n] below
    [maxRetries], and one such success, the next failure is counted as
    attempt 1. *)
Theorem success_resets_retry_counter :
  forall (statusCode : Z) (logsToSend : list LogEntry) (t : Transport),
    (200 <= statusCode <= 299)%Z ->
    resolves (Response statusCode) = true
    /\ retryCount (flush_settle (Response statusCode) logsToSend t) = 0
    /\ batch (flush_settle (Response statusCode) logsToSend t) = batch t
    /\ forall (failures : list (outcome * list LogEntry)) (o : outcome)
              (next : list LogEntry),
         retryCount t = 0 ->
         List.length failures < maxRetries t ->
         Forall (fun s => resolves (fst s) = false) failures ->
         resolves o = false ->
         retryCount (settle_all failures t) = List.length failures
         /\ retryCount
              (flush_settle o next
                 (flush_settle (Response statusCode) logsToSend
                    (settle_all failures t))) = 1.
Proof.
  intros statusCode logsToSend t Hstatus.
  assert (Hok : resolves (Response statusCode) = true).
  { simpl. apply andb_true_intro. split; [apply Z.leb_le | apply Z.ltb_lt]; lia. }
  split; [exact Hok |].
  rewrite flush_settle_success by exact Hok.
  split; [reflexivity |]. split; [reflexivity |].
  intros failures o next Hzero Hlen Hall Ho.
  destruct (settle_all_failures failures t Hall) as [Hrc Hmax]; [lia |].
  split; [lia |].
  rewrite (flush_settle_success (Response statusCode)) by exact Hok.
  rewrite flush_settle_retry; [reflexivity | exact Ho |].
  simpl. rewrite Hmax. lia.
Qed.

Lemma success_resets_retry_counter_witness :
  (200 <= 204 <= 299)%Z
  /\ retryCount
       (flush_settle (Response 204) [Samples.entry 1 "t1"] Samples.exhausted) = 0.
Proof.
  assert (Hstatus : (200 <= 204 <= 299)%Z) by lia.
  split; [exact Hstatus |].
  exact (proj1 (proj2 (success_resets_retry_counter 204 [Samples.entry 1 "t1"]
                         Samples.exhausted Hstatus))).
Defined.

(** C7.  With [maxRetries] 3 and the counter at zero, the first three
    failed flushes in a row each put the last three entries back for a
    retry, and the fourth drops them: four requests were written in all,
    the batch is empty, and a further flush has nothing to send. *)
Theorem fourth_failure_drops_batch :
  forall (t : Transport) (o1 o2 o3 o4 : outcome),
    maxRetries t = 3 ->
    retryCount t = 0 ->
    batch t <> [] ->
    resolves o1 = false -> resolves o2 = false ->
    resolves o3 = false -> resolves o4 = false ->
    let kept := slice_last 3 (batch t) in
    let t1 := flush o1 t in
    let t2 := flush o2 t1 in
    let t3 := flush o3 t2 in
    let t4 := flush o4 t3 in
    kept <> []
    /\ (batch t1 = kept /\ retryCount t1 = 1)
    /\ (batch t2 = kept /\ retryCount t2 = 2)
    /\ (batch t3 = kept /\ retryCount t3 = 3)
    /\ batch t4 = []
    /\ sent t4 =
         sent t ++ [otlpRequest (streamName t) (batch t);
                    otlpRequest (streamName t) kept;
                    otlpRequest (streamName t) kept;
                    otlpRequest (streamName t) kept]
    /\ forall o5, flush o5 t4 = t4.
Proof.
  intros t o1 o2 o3 o4 Hmax Hzero Hne H1 H2 H3 H4 kept t1 t2 t3 t4.
  assert (Hkept : kept <> []) by (apply slice_last_nonempty; [assumption | lia]).
  destruct (flush_retry o1 t Hne H1) as (Hb1 & Hr1 & Hm1 & Hs1 & Hp1 & Hq1); [lia |].
  fold t1 in Hb1, Hr1, Hm1, Hs1, Hp1, Hq1. fold kept in Hb1.
  assert (Hne1 : batch t1 <> []) by (rewrite Hb1; exact Hkept).
  destruct (flush_retry o2 t1 Hne1 H2) as (Hb2 & Hr2 & Hm2 & Hs2 & Hp2 & Hq2); [lia |].
  fold t2 in Hb2, Hr2, Hm2, Hs2, Hp2, Hq2.
  rewrite Hb1 in Hb2, Hq2. unfold kept in Hb2 at 1. rewrite slice_last_idem in Hb2.
  fold kept in Hb2.
  assert (Hne2 : batch t2 <> []) by (rewrite Hb2; exact Hkept).
  destruct (flush_retry o3 t2 Hne2 H3) as (Hb3 & Hr3 & Hm3 & Hs3 & Hp3 & Hq3); [lia |].
  fold t3 in Hb3, Hr3, Hm3, Hs3, Hp3, Hq3.
  rewrite Hb2 in Hb3, Hq3. unfold kept in Hb3 at 1. rewrite slice_last_idem in Hb3.
  fold kept in Hb3.
  assert (Hne3 : batch t3 <> []) by (rewrite Hb3; exact Hkept).
  destruct (flush_exhausted o4 t3 Hne3 H4) as (Hb4 & Hr4 & Hp4 & Hq4); [lia |].
  fold t4 in Hb4, Hr4, Hp4, Hq4. rewrite Hb3 in Hq4.
  split; [exact Hkept |].
  split; [split; [exact Hb1 | lia] |].
  split; [split; [exact Hb2 | lia] |].
  split; [split; [exact Hb3 | lia] |].
  split; [exact Hb4 |].
  split.
  - rewrite Hq4, Hq3, Hq2, Hq1, Hs3, Hs2, Hs1.
    rewrite <- !app_assoc. reflexivity.
  - intros o5. apply flush_empty. exact Hb4.
Qed.

Lemma fourth_failure_drops_batch_witness :
  let t := push (Samples.entry 1 "t1") Samples.fresh in
  maxRetries t = 3 /\ retryCount t = 0 /\ batch t <> []
  /\ batch (flush NetworkError
              (flush NetworkError (flush NetworkError (flush NetworkError t))))
     = [].
Proof.
  intros t.
  split; [reflexivity |]. split; [reflexivity |].
  split; [unfold t; simpl; discriminate |].
  apply (fourth_failure_drops_batch t NetworkError NetworkError NetworkError
           NetworkError);
    (reflexivity || (unfold t; simpl; discriminate)).
Defined.

(** *** Shutdown *)

Lemma exec_timer_off (a : action) (t : Transport) :
  timer t = false -> timer (exec a t) = false.
Proof.
  intros Hoff. destruct a as [info now | | i o | |]; simpl.
  - unfold log. destruct (logEntry_of info now) as [e | err]; simpl; [| assumption].
    destruct (_ <=? _); [| assumption].
    unfold flush_drain. simpl. now destruct (batch t ++ [e]).
  - now rewrite Hoff.
  - destruct (nth_error (pending t) i); [| assumption].
    unfold flush_settle. destruct (resolves o); [assumption |].
    now destruct (_ <? _).
  - unfold flush_drain. now destruct (batch t).
  - unfold close. rewrite Hoff.
    destruct (_ <? _); [| assumption].
    unfold flush_drain. now destruct (batch t).
Qed.

Lemma run_timer_off (acts : list action) (t : Transport) :
  timer t = false -> timer (run acts t) = false.
Proof.
  revert t. induction acts as [| a acts IH]; intros t Hoff; simpl; [assumption |].
  apply IH. now apply exec_timer_off.
Qed.

Lemma close_timer (t : Transport) : timer (close t) = false.
Proof.
  unfold close. destruct (timer t) eqn:Ht; simpl;
    (destruct (_ <? _); [| assumption || reflexivity]);
    unfold flush_drain; simpl; destruct (batch t); simpl; assumption || reflexivity.
Qed.

(** C9.  [close] turns the timer off, and whatever happens later a tick
    does nothing any more; with a non-empty batch [close] writes exactly
    one request, carrying the whole batch, and with an empty batch none. *)
Theorem close_stops_timer_and_flushes_once :
  forall (t : Transport),
    timer (close t) = false
    /\ (forall acts,
          timer (run acts (close t)) = false
          /\ exec ATick (run acts (close t)) = run acts (close t))
    /\ (batch t <> [] ->
        sent (close t) = sent t ++ [otlpRequest (streamName t) (batch t)]
        /\ pending (close t) = pending t ++ [batch t]
        /\ batch (close t) = [])
    /\ (batch t = [] ->
        sent (close t) = sent t /\ pending (close t) = pending t).
Proof.
  intros t. split; [apply close_timer |]. split; [| split].
  - intros acts.
    assert (Hoff : timer (run acts (close t)) = false)
      by (apply run_timer_off, close_timer).
    split; [exact Hoff |]. simpl. now rewrite Hoff.
  - intros Hne. unfold close.
    destruct (batch t) as [| e b] eqn:Hb; [congruence |].
    destruct (timer t); simpl; rewrite Hb; simpl;
      unfold flush_drain; simpl; rewrite Hb; simpl; auto.
  - intros Hb. unfold close.
    destruct (timer t); simpl; rewrite Hb; simpl; auto.
Qed.

Lemma close_stops_timer_and_flushes_once_witness :
  let t := push (Samples.entry 1 "t1") Samples.fresh in
  batch t <> []
  /\ sent (close t) = sent t ++ [otlpRequest (streamName t) (batch t)].
Proof.
  intros t.
  split; [unfold t; simpl; discriminate |].
  apply (close_stops_timer_and_flushes_once t).
  unfold t; simpl; discriminate.
Defined.

(** *** Drains and the shared batch *)

Lemma accepted_cons (a : action) (acts : list action) :
  accepted (a :: acts) = accepted [a] ++ accepted acts.
Proof.
  destruct a as [info now | | i o | |]; simpl; try reflexivity.
  now destruct (logEntry_of info now).
Qed.

Lemma keeps_unchanged (a : action) (t : Transport) :
  accepted [a] = [] ->
  sent (exec a t) = sent t -> batch (exec a t) = batch t ->
  sinceDrain (exec a t) = sinceDrain t -> pending (exec a t) = pending t ->
  keeps a t.
Proof.
  intros Hacc Hs Hb Hd Hp. split; [exact Hs |]. exists [].
  rewrite Hacc, Hb, Hd, Hp, !app_nil_r. simpl.
  repeat split; auto. intros e [].
Qed.

Lemma drains_flush (a : action) (t : Transport) :
  accepted [a] = [] -> batch t <> [] ->
  sent (exec a t) = sent t ++ [otlpRequest (streamName t) (batch t)] ->
  pending (exec a t) = pending t ++ [batch t] ->
  batch (exec a t) = [] -> sinceDrain (exec a t) = [] ->
  drains a t.
Proof.
  intros Hacc Hne Hs Hp Hb Hd. exists (batch t).
  rewrite Hacc, app_nil_r. auto 10.
Qed.

Ltac crunch_step Ht Hb :=
  repeat first
    [ rewrite Ht | rewrite Hb | progress simpl
    | progress unfold close, on_interval, flush_drain ].

Lemma exec_cases (a : action) (t : Transport) : drains a t \/ keeps a t.
Proof.
  destruct a as [info now | | i o | |].
  - simpl. unfold drains, keeps. simpl. unfold log.
    destruct (logEntry_of info now) as [e | err]; simpl.
    + destruct (batchSize t <=? List.length (batch t ++ [e])).
      * left. exists (batch t ++ [e]).
        rewrite flush_drain_nonempty by (simpl; now destruct (batch t)).
        simpl. repeat split; auto. now destruct (batch t).
      * right. split; [reflexivity |]. exists []. simpl.
        repeat split; auto. intros x [].
    + right. split; [reflexivity |]. exists []. rewrite !app_nil_r. simpl.
      repeat split; auto. intros x [].
  - destruct (timer t) eqn:Ht; destruct (batch t) as [| e b] eqn:Hb;
      try (right; apply keeps_unchanged; now crunch_step Ht Hb).
    left. apply drains_flush; now crunch_step Ht Hb.
  - right. unfold keeps. simpl.
    destruct (nth_error (pending t) i) as [logsToSend |] eqn:Hnth.
    + assert (Hin : In logsToSend (pending t)) by (eapply nth_error_In; eauto).
      unfold flush_settle. destruct (resolves o); simpl.
      * split; [reflexivity |]. exists []. rewrite !app_nil_r. simpl.
        repeat split; auto; [intros x [] | apply remove_nth_incl].
      * destruct (retryCount t <? maxRetries t); simpl.
        -- split; [reflexivity |]. exists (slice_last 3 logsToSend).
           rewrite !app_nil_r. repeat split; auto.
           ++ intros x Hx. exists logsToSend. auto.
           ++ apply remove_nth_incl.
        -- split; [reflexivity |]. exists []. rewrite !app_nil_r. simpl.
           repeat split; auto; [intros x [] | apply remove_nth_incl].
    + split; [reflexivity |]. exists []. rewrite !app_nil_r. simpl.
      repeat split; auto. intros x [].
  - destruct (timer t) eqn:Ht; destruct (batch t) as [| e b] eqn:Hb;
      try (right; apply keeps_unchanged; now crunch_step Ht Hb);
      left; apply drains_flush; now crunch_step Ht Hb.
  - destruct (timer t) eqn:Ht; destruct (batch t) as [| e b] eqn:Hb;
      try (right; apply keeps_unchanged; now crunch_step Ht Hb);
      left; apply drains_flush; now crunch_step Ht Hb.
Qed.

Lemma exec_sent_prefix (a : action) (t : Transport) :
  exists l, sent (exec a t) = sent t ++ l.
Proof.
  destruct (exec_cases a t) as [(logs & _ & _ & Hs & _) | (Hs & _)].
  - eexists. exact Hs.
  - exists []. now rewrite app_nil_r.
Qed.

Lemma run_sent_prefix (acts : list action) (t : Transport) :
  exists l, sent (run acts t) = sent t ++ l.
Proof.
  revert t. induction acts as [| a acts IH]; intros t.
  - exists []. simpl. now rewrite app_nil_r.
  - destruct (IH (exec a t)) as [l2 H2].
    destruct (exec_sent_prefix a t) as [l1 H1].
    exists (l1 ++ l2). change (run (a :: acts) t) with (run acts (exec a t)).
    rewrite H2, H1. now rewrite app_assoc.
Qed.

(** A step of a run that has written no request has written none itself. *)
Lemma no_request_step (a : action) (acts : list action) (t : Transport) :
  sent (run (a :: acts) t) = sent t ->
  keeps a t /\ sent (run acts (exec a t)) = sent (exec a t).
Proof.
  intros Hsent. change (run (a :: acts) t) with (run acts (exec a t)) in Hsent.
  destruct (run_sent_prefix acts (exec a t)) as [l2 H2].
  rewrite H2 in Hsent.
  destruct (exec_cases a t) as [(logs & _ & _ & Hs & _) | Hkeep].
  - exfalso. rewrite Hs, <- app_assoc in Hsent.
    rewrite <- (app_nil_r (sent t)) in Hsent at 2.
    apply app_inv_head in Hsent. discriminate.
  - split; [exact Hkeep |]. destruct Hkeep as (Hs & _).
    rewrite Hs in Hsent. rewrite <- (app_nil_r (sent t)) in Hsent at 2.
    apply app_inv_head in Hsent. subst l2.
    rewrite H2. now rewrite app_nil_r.
Qed.

(** As long as no request is written, everything accepted stays in the
    batch, in order, behind what was there and what failed sends put back. *)
Lemma run_without_drain (acts : list action) (t : Transport) :
  sent (run acts t) = sent t ->
  exists requeued,
    batch (run acts t) = requeued ++ batch t ++ accepted acts
    /\ sinceDrain (run acts t) = sinceDrain t ++ accepted acts
    /\ (forall e, In e requeued ->
          exists snap, In snap (pending t) /\ In e (slice_last 3 snap))
    /\ (forall snap, In snap (pending (run acts t)) -> In snap (pending t)).
Proof.
  revert t. induction acts as [| a acts IH]; intros t Hsent.
  - exists []. simpl. rewrite !app_nil_r. repeat split; auto. intros e [].
  - destruct (no_request_step a acts t Hsent) as [(_ & r1 & Hb1 & Hd1 & Hr1 & Hp1) Hrest].
    destruct (IH (exec a t) Hrest) as (r2 & Hb2 & Hd2 & Hr2 & Hp2).
    exists (r2 ++ r1). rewrite accepted_cons.
    change (run (a :: acts) t) with (run acts (exec a t)).
    rewrite Hb2, Hd2, Hb1, Hd1, <- !app_assoc. repeat split.
    + intros e Hin. apply in_app_or in Hin. destruct Hin as [Hin | Hin].
      * destruct (Hr2 e Hin) as (snap & Hsnap & He). exists snap. auto.
      * auto.
    + intros snap Hin. auto.
Qed.

Lemma snoc_neq {A : Type} (l : list A) (x : A) : l ++ [x] <> l.
Proof.
  intros Heq. apply (f_equal (@List.length A)) in Heq.
  rewrite length_app in Heq. simpl in Heq. lia.
Qed.

(** An action that writes no request changes the batch at its two ends
    only. *)
Lemma exec_batch (a : action) (t : Transport) :
  sent (exec a t) = sent t ->
  batch (exec a t) = requeued_by a t ++ batch t ++ accepted [a].
Proof.
  destruct a as [info now | | i o | |]; cbn [requeued_by app].
  - simpl. unfold log.
    destruct (logEntry_of info now) as [e | err]; simpl;
      [| intros _; now rewrite app_nil_r].
    destruct (batchSize t <=? List.length (batch t ++ [e])); [| reflexivity].
    rewrite flush_drain_nonempty by (simpl; now destruct (batch t)).
    simpl. intros Hsent. now apply snoc_neq in Hsent.
  - cbn [accepted]. rewrite app_nil_r.
    destruct (timer t) eqn:Ht; destruct (batch t) as [| e b] eqn:Hb;
      crunch_step Ht Hb; try reflexivity.
    intros Hsent. now apply snoc_neq in Hsent.
  - cbn [accepted]. rewrite app_nil_r. simpl.
    destruct (nth_error (pending t) i) as [logsToSend |]; [| reflexivity].
    unfold flush_settle. destruct (resolves o); [reflexivity |].
    simpl. now destruct (retryCount t <? maxRetries t).
  - cbn [accepted]. rewrite app_nil_r.
    destruct (batch t) as [| e b] eqn:Hb; crunch_step Hb Hb; try reflexivity.
    intros Hsent. now apply snoc_neq in Hsent.
  - cbn [accepted]. rewrite app_nil_r.
    destruct (timer t) eqn:Ht; destruct (batch t) as [| e b] eqn:Hb;
      crunch_step Ht Hb; try reflexivity;
      intros Hsent; now apply snoc_neq in Hsent.
Qed.

Lemma requeued_by_no_failure (a : action) (acts : list action) (t : Transport) :
  no_failure (a :: acts) = true ->
  requeued_by a t = [] /\ no_failure acts = true.
Proof.
  unfold no_failure. cbn [forallb]. intros Hall.
  apply andb_true_iff in Hall. destruct Hall as [Ha Hrest].
  split; [| exact Hrest].
  destruct a as [info now | | i o | |]; cbn [requeued_by]; try reflexivity.
  rewrite Ha. now destruct (nth_error (pending t) i).
Qed.

Lemma requeued_in_no_failure (acts : list action) (t : Transport) :
  no_failure acts = true -> requeued_in acts t = [].
Proof.
  revert t. induction acts as [| a acts IH]; intros t Hall; [reflexivity |].
  destruct (requeued_by_no_failure a acts t Hall) as [Hnone Hrest].
  cbn [requeued_in]. now rewrite Hnone, (IH _ Hrest).
Qed.

(** While no request is written, the batch is what the actions put back,
    then what it was, then what was accepted. *)
Lemma run_batch (acts : list action) (t : Transport) :
  sent (run acts t) = sent t ->
  batch (run acts t) = requeued_in acts t ++ batch t ++ accepted acts.
Proof.
  revert t. induction acts as [| a acts IH]; intros t Hsent.
  - simpl. now rewrite app_nil_r.
  - destruct (no_request_step a acts t Hsent) as [[Hstep _] Hrest].
    change (run (a :: acts) t) with (run acts (exec a t)).
    rewrite (IH _ Hrest), (exec_batch a t Hstep), (accepted_cons a acts).
    cbn [requeued_in]. now rewrite <- !app_assoc.
Qed.

(** The batch of every state is what was put back since the last drain,
    then what was accepted since. *)
Lemma run_front (front : list LogEntry) (acts : list action) (t : Transport) :
  batch t = front ++ sinceDrain t ->
  batch (run acts t)
  = requeued_since_drain front acts t ++ sinceDrain (run acts t).
Proof.
  revert front t. induction acts as [| a acts IH]; intros front t Hinv.
  - exact Hinv.
  - change (run (a :: acts) t) with (run acts (exec a t)).
    cbn [requeued_since_drain]. apply IH.
    destruct (exec_cases a t)
      as [(logs & _ & _ & Hs & _ & Hb & Hd) | (Hs & r & _ & Hd & _)].
    + rewrite Hs, length_app, Hb, Hd. cbn [List.length].
      replace (List.length (sent t) + 1 =? List.length (sent t)) with false
        by (symmetry; apply Nat.eqb_neq; lia).
      reflexivity.
    + rewrite (exec_batch a t Hs), Hs, Nat.eqb_refl, Hd, Hinv.
      now rewrite <- !app_assoc.
Qed.

(** C4 (as amended).  A flush of a non-empty batch moves all of it into its
    snapshot and leaves the shared batch empty as it writes the request.
    The batch of a constructed transport is at every moment the entries
    that sends failing within the retry budget have put back since the
    last drain (the last three of each one's snapshot, the latest failure
    first), followed by the entries accepted since that drain.  And while
    no further request is written, the batch is what such failures put
    back, then what it held, then whatever was accepted, once each and in
    order, so that the next drain takes all of it; sends that succeed put
    nothing back. *)
Theorem drain_before_send :
  forall (t : Transport),
    (batch t <> [] ->
     batch (flush_drain t) = []
     /\ pending (flush_drain t) = pending t ++ [batch t]
     /\ sent (flush_drain t) = sent t ++ [otlpRequest (streamName t) (batch t)])
    /\ (forall opts acts,
          t = run acts (new_transport opts) ->
          batch t
          = requeued_since_drain [] acts (new_transport opts) ++ sinceDrain t)
    /\ (forall acts,
          sent (run acts t) = sent t ->
          batch (run acts t) = requeued_in acts t ++ batch t ++ accepted acts
          /\ (forall e, In e (requeued_in acts t) ->
                exists snap, In snap (pending t) /\ In e (slice_last 3 snap))
          /\ (no_failure acts = true -> requeued_in acts t = [])
          /\ (accepted acts <> [] ->
              pending (flush_drain (run acts t))
              = pending (run acts t)
                ++ [requeued_in acts t ++ batch t ++ accepted acts])).
Proof.
  intros t. split; [| split].
  - intros Hne. rewrite flush_drain_nonempty by exact Hne. simpl. auto.
  - intros opts acts ->. now apply run_front.
  - intros acts Hsent.
    pose proof (run_batch acts t Hsent) as Hb.
    split; [exact Hb |]. split; [| split].
    + destruct (run_without_drain acts t Hsent) as (r & Hb' & _ & Hr & _).
      rewrite Hb in Hb'. apply app_inv_tail in Hb'. now rewrite Hb'.
    + apply requeued_in_no_failure.
    + intros Hacc. rewrite flush_drain_nonempty.
      * simpl. now rewrite Hb.
      * rewrite Hb. intros Hnil.
        apply app_eq_nil in Hnil. destruct Hnil as [_ Hnil].
        apply app_eq_nil in Hnil. destruct Hnil as [_ Hnil]. contradiction.
Qed.

Lemma drain_before_send_witness :
  let t := Samples.five_in_flight in
  let acts := Samples.feed 6 4 ++ [ASettle 0 NetworkError] ++ Samples.feed 10 6 in
  pending t = [Samples.entries 1 5]
  /\ sent (run acts t) = sent t
  /\ batch (run acts t) = requeued_in acts t ++ batch t ++ accepted acts
  /\ requeued_in acts t = Samples.entries 3 3
  /\ accepted acts = Samples.entries 6 10.
Proof.
  intros t acts.
  assert (Hsent : sent (run acts t) = sent t) by (vm_compute; reflexivity).
  split; [vm_compute; reflexivity |].
  split; [exact Hsent |].
  split; [exact (proj1 (proj2 (proj2 (drain_before_send t)) acts Hsent)) |].
  split; vm_compute; reflexivity.
Defined.

(** C4 (as stated) fails.  After a failed send the batch holds entries
    accepted before the last drain.  With the default batch size of 5, ten
    events accepted during a five-event send are cut into two snapshots.
    And an event accepted during a send is in two later snapshots when the
    request carrying it fails. *)
Lemma batch_holds_entries_from_before_drain :
  (let t := run (Samples.feed 1 3 ++ [ASettle 0 NetworkError]) Samples.fresh in
   batch t = Samples.entries 1 3
   /\ sinceDrain t = []
   /\ ~ (forall e, In e (batch t) -> In e (sinceDrain t)))
  /\ (let t := run (Samples.feed 1 5) (new_transport Samples.default_options) in
      pending t = [Samples.entries 1 5]
      /\ pending (run (Samples.feed 6 10) t)
         = [Samples.entries 1 5; Samples.entries 6 5; Samples.entries 11 5])
  /\ (let t := run (Samples.feed 1 3) Samples.fresh in
      pending t = [Samples.entries 1 3]
      /\ sent (run (Samples.feed 4 1
                    ++ [ASettle 0 (Response 200); ATick;
                        ASettle 0 NetworkError; ATick]) t)
         = [otlpRequest "n8n-logs" (Samples.entries 1 3);
            otlpRequest "n8n-logs" (Samples.entries 4 1);
            otlpRequest "n8n-logs" (Samples.entries 4 1)]).
Proof.
  split; [| split].
  - intros t. split; [vm_compute; reflexivity |].
    split; [vm_compute; reflexivity |].
    intros Hall. specialize (Hall (Samples.entry 1 "t")).
    assert (Hin : In (Samples.entry 1 "t") (sinceDrain t))
      by (apply Hall; vm_compute; auto).
    vm_compute in Hin. exact Hin.
  - intros t. split; vm_compute; reflexivity.
  - intros t. split; vm_compute; reflexivity.
Qed.

(** *** Objects *)

Lemma get_update_same (k : string) (v x : value) (o : obj) :
  get k o = Some x -> get k (update k v o) = Some v.
Proof.
  induction o as [| [k' v'] o IH]; simpl; [discriminate |].
  destruct (String.eqb k k') eqn:Hk; simpl; rewrite Hk; auto.
Qed.

Lemma get_update_other (k k' : string) (v : value) (o : obj) :
  k <> k' -> get k (update k' v o) = get k o.
Proof.
  intros Hne. induction o as [| [k0 v0] o IH]; simpl; [reflexivity |].
  destruct (String.eqb k' k0) eqn:Hk0; simpl.
  - apply String.eqb_eq in Hk0. subst k0.
    apply String.eqb_neq in Hne. now rewrite Hne.
  - now rewrite IH.
Qed.

Lemma get_insert_same (k : string) (v : value) (o : obj) :
  get k o = None -> get k (insert k v o) = Some v.
Proof.
  induction o as [| [k' v'] o IH]; simpl.
  - intros _. now rewrite String.eqb_refl.
  - destruct (String.eqb k k') eqn:Hk; [discriminate |]. intros Hnone.
    destruct (comes_before k k'); simpl.
    + now rewrite String.eqb_refl.
    + rewrite Hk. now apply IH.
Qed.

Lemma get_insert_other (k k' : string) (v : value) (o : obj) :
  k <> k' -> get k (insert k' v o) = get k o.
Proof.
  intros Hne. apply String.eqb_neq in Hne.
  induction o as [| [k0 v0] o IH]; simpl.
  - now rewrite Hne.
  - destruct (comes_before k' k0); simpl.
    + now rewrite Hne.
    + now rewrite IH.
Qed.

Lemma get_set_same (k : string) (v : value) (o : obj) :
  get k (set k v o) = Some v.
Proof.
  unfold set. destruct (get k o) as [x |] eqn:Hget.
  - eapply get_update_same; eauto.
  - now apply get_insert_same.
Qed.

Lemma get_set_other (k k' : string) (v : value) (o : obj) :
  k <> k' -> get k (set k' v o) = get k o.
Proof.
  intros Hne. unfold set. destruct (get k' o).
  - now apply get_update_other.
  - now apply get_insert_other.
Qed.

Lemma get_In (k : string) (v : value) (o : obj) :
  get k o = Some v -> In (k, v) o.
Proof.
  induction o as [| [k' v'] o IH]; simpl; [discriminate |].
  destruct (String.eqb k k') eqn:Hk.
  - apply String.eqb_eq in Hk. subst k'. intros [= ->]. now left.
  - intros Hget. right. now apply IH.
Qed.

Lemma get_None_keys (k : string) (o : obj) :
  get k o = None <-> ~ In k (keys o).
Proof.
  induction o as [| [k' v'] o IH]; simpl.
  - tauto.
  - destruct (String.eqb k k') eqn:Hk.
    + apply String.eqb_eq in Hk. subst k'. split; [discriminate | tauto].
    + apply String.eqb_neq in Hk. rewrite IH. split.
      * intros Hnot [Heq | Hin]; [congruence | tauto].
      * tauto.
Qed.


Lemma In_keys (k : string) (v : value) (o : obj) :
  In (k, v) o -> In k (keys o).
Proof.
  intros Hin. unfold keys. change k with (fst (k, v)). now apply in_map.
Qed.

Lemma keys_update (k : string) (v : value) (o : obj) :
  keys (update k v o) = keys o.
Proof.
  induction o as [| [k0 v0] o IH]; simpl; [reflexivity |].
  destruct (String.eqb k k0); simpl; [reflexivity | now rewrite IH].
Qed.

Lemma keys_insert (k k' : string) (v : value) (o : obj) :
  In k (keys (insert k' v o)) <-> k = k' \/ In k (keys o).
Proof.
  induction o as [| [k0 v0] o IH]; simpl.
  - intuition.
  - destruct (comes_before k' k0); simpl.
    + intuition.
    + rewrite IH. intuition.
Qed.

Lemma keys_set (k k' : string) (v : value) (o : obj) :
  In k (keys (set k' v o)) <-> k = k' \/ In k (keys o).
Proof.
  unfold set. destruct (get k' o) as [x |] eqn:Hget.
  - rewrite keys_update. apply get_In, In_keys in Hget.
    split; [now right | intros [-> | Hin]; assumption].
  - apply keys_insert.
Qed.

Lemma insert_NoDup (k : string) (v : value) (o : obj) :
  ~ In k (keys o) -> NoDup (keys o) -> NoDup (keys (insert k v o)).
Proof.
  induction o as [| [k0 v0] o IH]; simpl; intros Hnotin Hnd.
  - constructor; [intros [] | constructor].
  - destruct (comes_before k k0); simpl.
    + constructor; [exact Hnotin | exact Hnd].
    + inversion Hnd as [| x l Hk0 Hnd']; subst.
      constructor; [| apply IH; [tauto | exact Hnd']].
      rewrite keys_insert. intros [Heq | Hin]; [| contradiction].
      apply Hnotin. left. now symmetry.
Qed.

Lemma set_NoDup (k : string) (v : value) (o : obj) :
  NoDup (keys o) -> NoDup (keys (set k v o)).
Proof.
  intros Hnd. unfold set. destruct (get k o) as [x |] eqn:Hget.
  - now rewrite keys_update.
  - apply insert_NoDup; [now apply get_None_keys | exact Hnd].
Qed.

(** [assign] stores what [set] stores, under every key but [__proto__]. *)
Lemma get_assign_same (k : string) (v : value) (o : obj) :
  k <> "__proto__"%string -> get k (assign k v o) = Some v.
Proof.
  intros Hne. unfold assign. apply String.eqb_neq in Hne. rewrite Hne.
  apply get_set_same.
Qed.

Lemma get_assign_other (k k' : string) (v : value) (o : obj) :
  k <> k' -> get k (assign k' v o) = get k o.
Proof.
  intros Hne. unfold assign. destruct (String.eqb k' "__proto__"); [reflexivity |].
  now apply get_set_other.
Qed.

Lemma get_assign_proto (k : string) (v : value) (o : obj) :
  get "__proto__" (assign k v o) = get "__proto__" o.
Proof.
  unfold assign. destruct (String.eqb k "__proto__") eqn:Hk; [reflexivity |].
  apply get_set_other. apply String.eqb_neq in Hk. congruence.
Qed.

Lemma assign_NoDup (k : string) (v : value) (o : obj) :
  NoDup (keys o) -> NoDup (keys (assign k v o)).
Proof.
  intros Hnd. unfold assign. destruct (String.eqb k "__proto__"); [exact Hnd |].
  now apply set_NoDup.
Qed.

(** A property the spread source lacks keeps the value of the target. *)
Lemma get_spread_absent (k : string) (o src : obj) :
  get k src = None -> get k (spread o src) = get k o.
Proof.
  unfold spread. revert o.
  induction src as [| [k' v'] src IH]; intros o Hnone; simpl in *; [reflexivity |].
  destruct (String.eqb k k') eqn:Hk; [discriminate |].
  rewrite IH by assumption. apply get_set_other.
  now apply String.eqb_neq.
Qed.

(** A property of the spread source overrides the target's. *)
Lemma get_spread_present (k : string) (v : value) (o src : obj) :
  NoDup (keys src) -> get k src = Some v -> get k (spread o src) = Some v.
Proof.
  unfold spread. revert o.
  induction src as [| [k' v'] src IH]; intros o Hnd Hget; simpl in *; [discriminate |].
  inversion Hnd as [| x l Hnotin Hnd']; subst.
  destruct (String.eqb k k') eqn:Hk.
  - apply String.eqb_eq in Hk. subst k'. injection Hget as ->.
    apply get_None_keys in Hnotin.
    pose proof (get_spread_absent k (set k v o) src Hnotin) as Habs.
    unfold spread in Habs. rewrite Habs. apply get_set_same.
  - now apply IH.
Qed.

Lemma keys_spread (k : string) (o src : obj) :
  In k (keys (spread o src)) <-> In k (keys o) \/ In k (keys src).
Proof.
  unfold spread. revert o.
  induction src as [| [k' v'] src IH]; intros o; simpl.
  - tauto.
  - rewrite IH, keys_set. intuition (subst; auto).
Qed.

(** *** extractMetadata *)

Lemma stringify_object_defined (v : value) :
  typeof_object v = true -> is_nullish v = false -> stringify v <> JUndef.
Proof.
  destruct v; simpl; try discriminate; intros _ _;
    match goal with
    | |- context [match ?x with Ok _ => _ | Throw _ => _ end] => destruct x
    end; discriminate.
Qed.

(** A key whose fields are all skipped keeps what [metadata] had for it. *)
Lemma extractMetadata_skips (k : string) (entries metadata result : obj) :
  extractMetadata_from entries metadata = Ok result ->
  (forall v, In (k, v) entries ->
     includes excluded_info_keys k = true \/ is_nullish v = true) ->
  get k result = get k metadata.
Proof.
  revert metadata.
  induction entries as [| [k0 v0] entries IH]; intros metadata Hrun Hskip;
    cbn [extractMetadata_from negb] in Hrun.
  - now injection Hrun as ->.
  - assert (Hrest : forall v, In (k, v) entries ->
              includes excluded_info_keys k = true \/ is_nullish v = true)
      by (intros v Hin; apply Hskip; now right).
    destruct (includes excluded_info_keys k0) eqn:Hexc; cbn [extractMetadata_from negb] in Hrun;
      [now apply IH |].
    destruct (is_nullish v0) eqn:Hnull; cbn [extractMetadata_from negb] in Hrun; [now apply IH |].
    assert (Hne : k <> k0).
    { intros ->. destruct (Hskip v0 (or_introl eq_refl)); congruence. }
    destruct (typeof_object v0).
    + destruct (stringify v0) as [s | | err]; [| | discriminate];
        rewrite (IH _ Hrun Hrest); now apply get_assign_other.
    + rewrite (IH _ Hrun Hrest). now apply get_assign_other.
Qed.

(** A field that is neither excluded nor null nor undefined is stored as a
    string under its key. *)
Lemma extractMetadata_stores (k : string) (v : value) (entries metadata result : obj) :
  extractMetadata_from entries metadata = Ok result ->
  NoDup (keys entries) ->
  In (k, v) entries ->
  includes excluded_info_keys k = false ->
  k <> "__proto__"%string ->
  is_nullish v = false ->
  exists s, field_text v = Some s /\ get k result = Some (VStr s).
Proof.
  revert metadata.
  induction entries as [| [k0 v0] entries IH];
    intros metadata Hrun Hnd Hin Hexc Hproto Hnull; [contradiction |].
  inversion Hnd as [| x l Hnotin Hnd']; subst.
  destruct Hin as [Heq | Hin].
  - injection Heq as -> ->. cbn [extractMetadata_from negb] in Hrun. rewrite Hexc, Hnull in Hrun. cbn [extractMetadata_from negb] in Hrun.
    assert (Hrest : forall v', In (k, v') entries ->
              includes excluded_info_keys k = true \/ is_nullish v' = true).
    { intros v' Hin'. exfalso. apply Hnotin. eapply In_keys; eauto. }
    unfold field_text. destruct (typeof_object v) eqn:Hobj.
    + destruct (stringify v) as [s | | err] eqn:Hs; [| | discriminate].
      * exists s. split; [reflexivity |].
        rewrite (extractMetadata_skips k _ _ _ Hrun Hrest). now apply get_assign_same.
      * exfalso. now apply (stringify_object_defined v).
    + exists (String_ v). split; [reflexivity |].
      rewrite (extractMetadata_skips k _ _ _ Hrun Hrest). now apply get_assign_same.
  - cbn [extractMetadata_from negb] in Hrun.
    destruct (includes excluded_info_keys k0); cbn [extractMetadata_from negb] in Hrun; [now eapply IH; eauto |].
    destruct (is_nullish v0); cbn [extractMetadata_from negb] in Hrun; [now eapply IH; eauto |].
    destruct (typeof_object v0).
    + destruct (stringify v0) as [s | | err]; [| | discriminate]; eapply IH; eauto.
    + eapply IH; eauto.
Qed.

Lemma extractMetadata_NoDup (entries metadata result : obj) :
  extractMetadata_from entries metadata = Ok result ->
  NoDup (keys metadata) -> NoDup (keys result).
Proof.
  revert metadata.
  induction entries as [| [k0 v0] entries IH]; intros metadata Hrun Hnd;
    cbn [extractMetadata_from negb] in Hrun.
  - now injection Hrun as <-.
  - destruct (includes excluded_info_keys k0); cbn [extractMetadata_from negb] in Hrun; [now eapply IH; eauto |].
    destruct (is_nullish v0); cbn [extractMetadata_from negb] in Hrun; [now eapply IH; eauto |].
    destruct (typeof_object v0).
    + destruct (stringify v0) as [s | | err]; [| | discriminate];
        eapply IH; eauto using assign_NoDup.
    + eapply IH; eauto using assign_NoDup.
Qed.

(** [extractMetadata] returns exactly on the serialisable objects. *)
Lemma extractMetadata_total (entries metadata : obj) :
  (serialisable entries = true ->
   exists result, extractMetadata_from entries metadata = Ok result)
  /\ (serialisable entries = false ->
      exists err, extractMetadata_from entries metadata = Throw err).
Proof.
  revert metadata.
  induction entries as [| [k0 v0] entries IH]; intros metadata;
    cbn [extractMetadata_from serialisable forallb fst snd].
  - split; [eauto | discriminate].
  - destruct (includes excluded_info_keys k0); cbn [negb orb andb]; [apply IH |].
    destruct (is_nullish v0); cbn [negb orb andb]; [apply IH |].
    destruct (typeof_object v0); cbn [negb orb andb]; [| apply IH].
    destruct (stringify v0) as [s | | err]; cbn [negb orb andb]; try apply IH.
    split; [discriminate | eauto].
Qed.

(** *** The log entry and its record *)

Lemma logEntry_of_inv (info : obj) (now : string) (e : LogEntry) :
  logEntry_of info now = Ok e ->
  exists level metadata,
    upper_level info = Ok level
    /\ extractMetadata_from info [] = Ok metadata
    /\ NoDup (keys metadata)
    /\ e = spread
             [("p_timestamp", VStr now); ("level", VStr level);
              ("message", prop "message" info);
              ("service", VStr "n8n-comprehensive"); ("logger", VStr "winston")]
             metadata.
Proof.
  unfold logEntry_of, extractMetadata. intros Hrun.
  destruct (upper_level info) as [level | err]; [| discriminate].
  cbn [bind] in Hrun.
  destruct (extractMetadata_from info []) as [metadata | err] eqn:Hmd;
    [| discriminate].
  cbn [bind] in Hrun. injection Hrun as <-.
  exists level, metadata. repeat split; auto.
  eapply extractMetadata_NoDup; [exact Hmd | constructor].
Qed.

Lemma includes_true (ks : list string) (k : string) :
  includes ks k = true <-> In k ks.
Proof.
  unfold includes. rewrite existsb_exists. split.
  - intros (x & Hin & Heq). apply String.eqb_eq in Heq. now subst x.
  - intros Hin. exists k. split; [exact Hin | apply String.eqb_refl].
Qed.

Lemma includes_false (ks : list string) (k : string) :
  includes ks k = false <-> ~ In k ks.
Proof.
  rewrite <- includes_true. now destruct (includes ks k).
Qed.

Lemma attribute_of_property (k : string) (x : value) (e : LogEntry) :
  get k e = Some x ->
  includes excluded_entry_keys k = false ->
  In {| key := k; stringValue := String_ x |} (attributes (logRecord_of e)).
Proof.
  intros Hget Hkept. cbn [attributes logRecord_of].
  change {| key := k; stringValue := String_ x |} with (attribute_of (k, x)).
  apply in_map, filter_In. split; [now apply get_In |].
  cbn [fst]. now rewrite Hkept.
Qed.

Lemma property_of_attribute (a : KeyValue) (e : LogEntry) :
  In a (attributes (logRecord_of e)) ->
  In (key a) (keys e) /\ includes excluded_entry_keys (key a) = false.
Proof.
  cbn [attributes logRecord_of]. intros Hin.
  apply in_map_iff in Hin. destruct Hin as ([k x] & <- & Hin).
  apply filter_In in Hin. destruct Hin as [Hin Hkept].
  cbn [fst key attribute_of] in *. split.
  - eapply In_keys; eauto.
  - now destruct (includes excluded_entry_keys k).
Qed.

(** A key whose fields are all skipped has an attribute only when the
    transport stamps it itself. *)
Lemma skipped_key_has_no_attribute (info : obj) (now : string) (e : LogEntry)
    (k : string) :
  logEntry_of info now = Ok e ->
  (forall v, In (k, v) info ->
     includes excluded_info_keys k = true \/ is_nullish v = true) ->
  k <> "service" -> k <> "logger" ->
  forall a, In a (attributes (logRecord_of e)) -> key a <> k.
Proof.
  intros Hrun Hskip Hservice Hlogger a Hin Hkey.
  destruct (logEntry_of_inv info now e Hrun) as (level & md & _ & Hmd & _ & ->).
  apply property_of_attribute in Hin. destruct Hin as [Hin Hkept].
  rewrite Hkey in Hin, Hkept.
  apply includes_false in Hkept.
  apply keys_spread in Hin. destruct Hin as [Hin | Hin].
  - cbn in Hin, Hkept. intuition congruence.
  - pose proof (extractMetadata_skips k info [] md Hmd Hskip) as Hget.
    cbn [get] in Hget. apply get_None_keys in Hget. contradiction.
Qed.

Lemma NoDup_keys_functional (o : obj) (k : string) (v v' : value) :
  NoDup (keys o) -> In (k, v) o -> In (k, v') o -> v = v'.
Proof.
  induction o as [| [k0 v0] o IH]; intros Hnd Hin Hin'; [contradiction |].
  inversion Hnd as [| x l Hnotin Hnd']; subst.
  destruct Hin as [Heq | Hin]; destruct Hin' as [Heq' | Hin'].
  - congruence.
  - injection Heq as -> ->. exfalso. apply Hnotin. eapply In_keys; eauto.
  - injection Heq' as -> ->. exfalso. apply Hnotin. eapply In_keys; eauto.
  - now apply IH.
Qed.

Lemma extractMetadata_no_proto (entries metadata result : obj) :
  extractMetadata_from entries metadata = Ok result ->
  get "__proto__" result = get "__proto__" metadata.
Proof.
  revert metadata.
  induction entries as [| [k0 v0] entries IH]; intros metadata Hrun;
    cbn [extractMetadata_from negb] in Hrun.
  - now injection Hrun as ->.
  - destruct (includes excluded_info_keys k0);
      cbn [extractMetadata_from negb] in Hrun; [now apply IH |].
    destruct (is_nullish v0);
      cbn [extractMetadata_from negb] in Hrun; [now apply IH |].
    destruct (typeof_object v0).
    + destruct (stringify v0) as [s | | err]; [| | discriminate];
        rewrite (IH _ Hrun); apply get_assign_proto.
    + rewrite (IH _ Hrun). apply get_assign_proto.
Qed.

(** No field reaches the record under the key p_timestamp or __proto__. *)
Lemma entry_keys_have_no_attribute (info : obj) (now : string) (e : LogEntry) :
  logEntry_of info now = Ok e ->
  forall a, In a (attributes (logRecord_of e)) ->
    key a <> "p_timestamp" /\ key a <> "__proto__".
Proof.
  intros Hrun a Hin.
  destruct (logEntry_of_inv info now e Hrun) as (level & md & _ & Hmd & _ & ->).
  apply property_of_attribute in Hin. destruct Hin as [Hin Hkept]. split.
  - intros Hkey. rewrite Hkey in Hkept. discriminate.
  - intros Hkey. rewrite Hkey in Hin. apply keys_spread in Hin.
    destruct Hin as [Hin | Hin].
    + cbn in Hin. intuition discriminate.
    + pose proof (extractMetadata_no_proto info [] md Hmd) as Hget.
      cbn [get] in Hget. apply get_None_keys in Hget. contradiction.
Qed.

(** A field that is kept is an attribute under its key, as a string. *)
Lemma kept_field_has_attribute (info : obj) (now : string) (e : LogEntry)
    (k : string) (v : value) :
  wf_obj info ->
  logEntry_of info now = Ok e ->
  In (k, v) info ->
  includes excluded_info_keys k = false ->
  k <> "p_timestamp" ->
  k <> "__proto__" ->
  is_nullish v = false ->
  exists s,
    field_text v = Some s
    /\ In {| key := k; stringValue := s |} (attributes (logRecord_of e)).
Proof.
  intros Hwf Hrun Hin Hexc Hts Hproto Hnull.
  destruct (logEntry_of_inv info now e Hrun) as (level & md & _ & Hmd & Hnd & ->).
  destruct (extractMetadata_stores k v info [] md Hmd Hwf Hin Hexc Hproto Hnull)
    as (s & Htext & Hget).
  exists s. split; [exact Htext |].
  change s with (String_ (VStr s)). apply attribute_of_property.
  - now apply get_spread_present.
  - apply includes_false. apply includes_false in Hexc.
    cbn in *. intuition congruence.
Qed.

(** C3 (as amended).  In the record of an accepted event, every field whose
    key is none of level, message, timestamp, p_timestamp and __proto__ and
    whose value is neither null nor undefined is an attribute under its
    key, its value a string: the JSON text of an object or array,
    [String(v)] of anything else.  A field that is null or undefined has no
    attribute (under the keys service and logger the transport's own stamp
    stands), and neither has a field keyed level, message, timestamp,
    p_timestamp or __proto__. *)
Theorem fields_become_string_attributes :
  forall (info : obj) (now : string) (e : LogEntry) (k : string) (v : value),
    wf_obj info ->
    logEntry_of info now = Ok e ->
    In (k, v) info ->
    (includes excluded_info_keys k = false ->
     k <> "p_timestamp" ->
     k <> "__proto__" ->
     is_nullish v = false ->
     exists s,
       field_text v = Some s
       /\ In {| key := k; stringValue := s |} (attributes (logRecord_of e)))
    /\ (is_nullish v = true ->
        k <> "service" -> k <> "logger" ->
        forall a, In a (attributes (logRecord_of e)) -> key a <> k)
    /\ (includes excluded_info_keys k = true ->
        forall a, In a (attributes (logRecord_of e)) -> key a <> k)
    /\ (k = "p_timestamp" \/ k = "__proto__" ->
        forall a, In a (attributes (logRecord_of e)) -> key a <> k).
Proof.
  intros info now e k v Hwf Hrun Hin. split; [| split; [| split]].
  - intros Hexc Hts Hproto Hnull. now apply (kept_field_has_attribute info now).
  - intros Hnull Hservice Hlogger.
    apply (skipped_key_has_no_attribute info now e k Hrun); auto.
    intros v' Hin'. right.
    now rewrite <- (NoDup_keys_functional info k v v' Hwf Hin Hin').
  - intros Hexc.
    apply (skipped_key_has_no_attribute info now e k Hrun); auto.
    + apply includes_true in Hexc. cbn in Hexc. intuition congruence.
    + apply includes_true in Hexc. cbn in Hexc. intuition congruence.
  - intros Hk a Ha.
    destruct (entry_keys_have_no_attribute info now e Hrun a Ha) as [Hts Hproto].
    destruct Hk as [-> | ->]; assumption.
Qed.

Lemma fields_become_string_attributes_witness :
  let info := Samples.boom (Some (VStr "2024-01-01T00:00:00.000Z")) in
  wf_obj info
  /\ logEntry_of info "t" = Ok (Samples.boom_entry "t")
  /\ In ("nested", VObj [("a", VNum 1)]) info
  /\ exists s,
       field_text (VObj [("a", VNum 1)]) = Some s
       /\ In {| key := "nested"; stringValue := s |}
            (attributes (logRecord_of (Samples.boom_entry "t"))).
Proof.
  intros info.
  assert (Hwf : wf_obj info).
  { unfold wf_obj, info. cbn.
    repeat (constructor; [cbn; intuition discriminate |]). constructor. }
  assert (Hrun : logEntry_of info "t" = Ok (Samples.boom_entry "t"))
    by (vm_compute; reflexivity).
  assert (Hin : In ("nested", VObj [("a", VNum 1)]) info) by (cbn; auto 10).
  split; [exact Hwf |]. split; [exact Hrun |]. split; [exact Hin |].
  apply (fields_become_string_attributes info "t" (Samples.boom_entry "t") "nested"
           (VObj [("a", VNum 1)]) Hwf Hrun Hin);
    [reflexivity | discriminate | discriminate | reflexivity].
Defined.

(** C3 (as stated) fails: a field whose value is null is accepted and
    leaves no attribute, and so do a field keyed p_timestamp and a field
    keyed __proto__. *)
Lemma null_field_is_dropped :
  (exists e,
     logEntry_of Samples.with_null "t" = Ok e
     /\ In ("user", VNull) Samples.with_null
     /\ includes excluded_info_keys "user" = false
     /\ forall a, In a (attributes (logRecord_of e)) -> key a <> "user")
  /\ (exists e,
        logEntry_of Samples.with_p_timestamp "t" = Ok e
        /\ In ("p_timestamp", VStr "noon") Samples.with_p_timestamp
        /\ includes excluded_info_keys "p_timestamp" = false
        /\ forall a, In a (attributes (logRecord_of e)) -> key a <> "p_timestamp")
  /\ (exists e,
        logEntry_of Samples.with_proto "t" = Ok e
        /\ In ("__proto__", VStr "p") Samples.with_proto
        /\ includes excluded_info_keys "__proto__" = false
        /\ forall a, In a (attributes (logRecord_of e)) -> key a <> "__proto__").
Proof.
  split; [| split].
  - eexists. split; [vm_compute; reflexivity |].
    split; [cbn; auto |]. split; [reflexivity |].
    intros a Hin. cbn in Hin.
    destruct Hin as [<- | [<- | []]]; discriminate.
  - eexists. split; [vm_compute; reflexivity |].
    split; [cbn; auto |]. split; [reflexivity |].
    intros a Hin. cbn in Hin.
    destruct Hin as [<- | [<- | []]]; discriminate.
  - eexists. split; [vm_compute; reflexivity |].
    split; [cbn; auto |]. split; [reflexivity |].
    intros a Hin. cbn in Hin.
    destruct Hin as [<- | [<- | []]]; discriminate.
Qed.




(** C2.  The event of level ERROR with message "boom" and the fields code
    42 and nested {a: 1} is recorded with severity text "ERROR", with body
    "boom", with the attributes code = "42" and nested = the JSON text of
    the object, and with no attribute keyed level, message or timestamp;
    this at any time, and whether or not the event carries a timestamp. *)
Theorem boom_event_encoding :
  forall (timestamp : option value) (now : string),
    exists e,
      logEntry_of (Samples.boom timestamp) now = Ok e
      /\ severityText (logRecord_of e) = VStr "ERROR"
      /\ body_stringValue (logRecord_of e) = VStr "boom"
      /\ In {| key := "code"; stringValue := "42" |} (attributes (logRecord_of e))
      /\ In {| key := "nested"; stringValue := Samples.nested_text |}
            (attributes (logRecord_of e))
      /\ stringify (VObj [("a", VNum 1)]) = JText Samples.nested_text
      /\ forall a, In a (attributes (logRecord_of e)) ->
           key a <> "level" /\ key a <> "message" /\ key a <> "timestamp".
Proof.
  intros timestamp now. exists (Samples.boom_entry now).
  split; [destruct timestamp; reflexivity |].
  split; [reflexivity |]. split; [reflexivity |].
  split; [cbn; auto |]. split; [cbn; auto 10 |].
  split; [reflexivity |].
  intros a Hin. cbn in Hin.
  destruct Hin as [<- | [<- | [<- | [<- | []]]]]; cbn; repeat split; discriminate.
Qed.

(** *** log *)

Lemma upper_level_total (info : obj) :
  (has_string_level info = true -> exists level, upper_level info = Ok level)
  /\ (has_string_level info = false -> exists err, upper_level info = Throw err).
Proof.
  unfold has_string_level, upper_level.
  destruct (get "level" info) as [[| | | | | s | |] |];
    split; (discriminate || eauto).
Qed.

Lemma logEntry_of_total (info : obj) (now : string) :
  (loggable info = true -> exists e, logEntry_of info now = Ok e)
  /\ (loggable info = false -> exists err, logEntry_of info now = Throw err).
Proof.
  unfold loggable, logEntry_of, extractMetadata.
  destruct (upper_level_total info) as [Hlevel Hnolevel].
  destruct (extractMetadata_total info []) as [Hmd Hnomd].
  destruct (has_string_level info); cbn [andb].
  - destruct (Hlevel eq_refl) as [level ->]. cbn [bind].
    destruct (serialisable info).
    + destruct (Hmd eq_refl) as [md ->]. cbn [bind]. split; [eauto | discriminate].
    + destruct (Hnomd eq_refl) as [err ->]. cbn [bind]. split; [discriminate | eauto].
  - destruct (Hnolevel eq_refl) as [err ->]. cbn [bind].
    split; [discriminate | eauto].
Qed.

(** C8 (as amended).  A [log] call on an event with a string level whose
    objects and arrays can all be serialised returns normally, having
    pushed exactly one entry, and leaves the retry counter alone.  When the
    push brings the batch to [batchSize] or more, the whole batch, the new
    entry last, has been drained and its request written by the time [log]
    returns, the send still pending; otherwise nothing is sent.  On any
    other event [log] throws. *)
Theorem log_appends_and_triggers_flush :
  forall (info : obj) (now : string) (t : Transport),
    (loggable info = true ->
     exists e t',
       logEntry_of info now = Ok e
       /\ log info now t = Ok t'
       /\ retryCount t' = retryCount t
       /\ (S (List.length (batch t)) < batchSize t ->
           batch t' = batch t ++ [e]
           /\ pending t' = pending t
           /\ sent t' = sent t)
       /\ (batchSize t <= S (List.length (batch t)) ->
           batch t' = []
           /\ pending t' = pending t ++ [batch t ++ [e]]
           /\ sent t' = sent t ++ [otlpRequest (streamName t) (batch t ++ [e])]))
    /\ (loggable info = false -> exists err, log info now t = Throw err).
Proof.
  intros info now t.
  destruct (logEntry_of_total info now) as [Hok Hthrow]. split.
  - intros Hlog. destruct (Hok Hlog) as [e He].
    unfold log. rewrite He. cbn [bind].
    assert (Hlen : List.length (batch (push e t)) = S (List.length (batch t)))
      by (simpl; rewrite length_app; simpl; lia).
    assert (Hne : batch (push e t) <> [])
      by (simpl; now destruct (batch t)).
    rewrite Hlen. change (batchSize (push e t)) with (batchSize t).
    destruct (batchSize t <=? S (List.length (batch t))) eqn:Hfull.
    + apply Nat.leb_le in Hfull.
      eexists e, _. split; [reflexivity |]. split; [reflexivity |].
      rewrite flush_drain_nonempty by exact Hne. simpl.
      split; [reflexivity |]. split; [lia | auto].
    + apply Nat.leb_gt in Hfull.
      eexists e, _. split; [reflexivity |]. split; [reflexivity |]. simpl.
      split; [reflexivity |]. split; [auto | lia].
  - intros Hlog. destruct (Hthrow Hlog) as [err Herr].
    exists err. unfold log. now rewrite Herr.
Qed.

Lemma log_appends_and_triggers_flush_witness :
  let t := run (Samples.feed 1 2) Samples.fresh in
  loggable (Samples.event 3) = true
  /\ batchSize t <= S (List.length (batch t))
  /\ exists e t',
       log (Samples.event 3) "t" t = Ok t'
       /\ batch t' = []
       /\ pending t' = pending t ++ [batch t ++ [e]].
Proof.
  intros t.
  assert (Hlog : loggable (Samples.event 3) = true) by reflexivity.
  assert (Hfull : batchSize t <= S (List.length (batch t))) by (vm_compute; lia).
  split; [exact Hlog |]. split; [exact Hfull |].
  destruct (proj1 (log_appends_and_triggers_flush (Samples.event 3) "t" t) Hlog)
    as (e & t' & _ & Hrun & _ & _ & Hdrain).
  exists e, t'. split; [exact Hrun |].
  destruct (Hdrain Hfull) as (Hb & Hp & _). auto.
Defined.

(** C8 (as stated) fails: an event with a BigInt inside an object makes
    [log] throw to its caller. *)
Lemma log_throws_on_bigint_field :
  wf_obj Samples.with_bigint
  /\ has_string_level Samples.with_bigint = true
  /\ log Samples.with_bigint "t" Samples.fresh = Throw bigint_error
  /\ ~ (exists t', log Samples.with_bigint "t" Samples.fresh = Ok t').
Proof.
  split.
  { unfold wf_obj. cbn.
    repeat (constructor; [cbn; intuition discriminate |]). constructor. }
  split; [reflexivity |]. split; [reflexivity |].
  intros [t' Ht']. vm_compute in Ht'. discriminate.
Qed.

(** ** Further properties *)

(** *** What extractMetadata returns *)

Lemma update_In (k k0 : string) (v x : value) (o : obj) :
  In (k, v) (update k0 x o) -> (k, v) = (k0, x) \/ In (k, v) o.
Proof.
  induction o as [| [k1 v1] o IH]; simpl; [tauto |].
  destruct (String.eqb k0 k1) eqn:Hk.
  - apply String.eqb_eq in Hk. subst k1.
    intros [Heq | Hin]; [left; now symmetry | right; now right].
  - intros [Heq | Hin]; [right; now left |].
    destruct (IH Hin) as [Heq | Hin']; [now left | right; now right].
Qed.

Lemma insert_In (k k0 : string) (v x : value) (o : obj) :
  In (k, v) (insert k0 x o) -> (k, v) = (k0, x) \/ In (k, v) o.
Proof.
  induction o as [| [k1 v1] o IH]; simpl.
  - intros [Heq | []]. left. now symmetry.
  - destruct (comes_before k0 k1); simpl.
    + intros [Heq | Hin]; [left; now symmetry | now right].
    + intros [Heq | Hin]; [right; now left |].
      destruct (IH Hin) as [Heq | Hin']; [now left | right; now right].
Qed.

Lemma assign_In (k k0 : string) (v x : value) (o : obj) :
  In (k, v) (assign k0 x o) -> (k, v) = (k0, x) \/ In (k, v) o.
Proof.
  unfold assign, set. destruct (String.eqb k0 "__proto__"); [now right |].
  destruct (get k0 o); [apply update_In | apply insert_In].
Qed.

Lemma insert_last (k : string) (v : value) (o : obj) :
  (forall k', In k' (keys o) -> comes_before k k' = false) ->
  insert k v o = o ++ [(k, v)].
Proof.
  induction o as [| [k1 v1] o IH]; simpl; intros Hlast; [reflexivity |].
  rewrite (Hlast k1 (or_introl eq_refl)).
  rewrite IH; [reflexivity |]. intros k' Hin. apply Hlast. now right.
Qed.

Lemma set_fresh (k : string) (v : value) (o : obj) :
  ~ In k (keys o) ->
  (forall k', In k' (keys o) -> comes_before k k' = false) ->
  set k v o = o ++ [(k, v)].
Proof.
  intros Hnotin Hlast. unfold set.
  apply get_None_keys in Hnotin. rewrite Hnotin. now apply insert_last.
Qed.

Lemma ordered_before (l1 l2 : list string) (k : string) :
  enumeration_ordered (l1 ++ k :: l2) ->
  forall k', In k' l1 -> comes_before k k' = false.
Proof.
  induction l1 as [| k1 l1 IH]; simpl; intros [Hk1 Hord] k' Hin; [contradiction |].
  destruct Hin as [<- | Hin].
  - apply Hk1. apply in_or_app. right. now left.
  - now apply IH.
Qed.

Lemma ordered_remove (l1 l2 : list string) (k : string) :
  enumeration_ordered (l1 ++ k :: l2) -> enumeration_ordered (l1 ++ l2).
Proof.
  induction l1 as [| k1 l1 IH]; simpl; intros [Hk1 Hord]; [exact Hord |].
  split; [| now apply IH].
  intros k' Hin. apply Hk1. apply in_app_or in Hin.
  apply in_or_app. destruct Hin as [Hin | Hin]; [now left | right; now right].
Qed.

Lemma extractMetadata_from_strings (entries metadata result : obj) :
  extractMetadata_from entries metadata = Ok result ->
  (forall k v, In (k, v) metadata -> exists s, v = VStr s) ->
  forall k v, In (k, v) result -> exists s, v = VStr s.
Proof.
  revert metadata.
  induction entries as [| [k0 v0] entries IH]; intros metadata Hrun Hall;
    cbn [extractMetadata_from negb] in Hrun.
  - injection Hrun as <-. exact Hall.
  - destruct (includes excluded_info_keys k0);
      cbn [extractMetadata_from negb] in Hrun; [now apply (IH metadata) |].
    destruct (is_nullish v0) eqn:Hnull;
      cbn [extractMetadata_from negb] in Hrun; [now apply (IH metadata) |].
    assert (Hset : forall x, (exists s, x = VStr s) ->
              forall k v, In (k, v) (assign k0 x metadata) -> exists s, v = VStr s).
    { intros x Hx k v Hin. apply assign_In in Hin.
      destruct Hin as [[= -> ->] | Hin]; [exact Hx | eauto]. }
    destruct (typeof_object v0) eqn:Hobj.
    + destruct (stringify v0) as [s | | err] eqn:Hs; [| | discriminate].
      * apply (IH _ Hrun). apply Hset. eauto.
      * exfalso. now apply (stringify_object_defined v0).
    + apply (IH _ Hrun). apply Hset. eauto.
Qed.

(** X1.  Whatever [extractMetadata] returns holds strings only: each of its
    properties is a string, so that the [String(value)] of the encoding
    leaves every copied field as [extractMetadata] made it. *)
Theorem extractMetadata_returns_strings :
  forall (info metadata : obj) (k : string) (v : value),
    extractMetadata info = Ok metadata ->
    In (k, v) metadata ->
    exists s, v = VStr s /\ String_ v = s.
Proof.
  intros info metadata k v Hrun Hin.
  destruct (extractMetadata_from_strings info [] metadata Hrun
              (fun k' v' (H : In (k', v') []) => match H with end) k v Hin)
    as [s ->].
  exists s. split; reflexivity.
Qed.

Lemma extractMetadata_returns_strings_witness :
  extractMetadata (Samples.boom None)
  = Ok [("code", VStr "42"); ("nested", VStr Samples.nested_text)]
  /\ exists s, VStr "42" = VStr s /\ String_ (VStr "42") = s.
Proof.
  assert (Hrun : extractMetadata (Samples.boom None)
                 = Ok [("code", VStr "42"); ("nested", VStr Samples.nested_text)])
    by reflexivity.
  split; [exact Hrun |].
  apply (extractMetadata_returns_strings (Samples.boom None) _ "code" (VStr "42") Hrun).
  now left.
Defined.

Lemma stored_matches (k : string) (v : value) :
  is_nullish v = false ->
  (typeof_object v = true ->
   match stringify v with
   | JText s => snd (stored (k, v)) = VStr s
   | JUndef => snd (stored (k, v)) = VUndefined
   | JThrow _ => True
   end)
  /\ (typeof_object v = false -> snd (stored (k, v)) = VStr (String_ v)).
Proof.
  intros Hnull. unfold stored, field_text. cbn [snd fst]. split; intros Hobj;
    rewrite Hobj; [| reflexivity].
  now destruct (stringify v).
Qed.

Lemma kept_of_copied (k : string) (v : value) :
  includes excluded_info_keys k = false -> is_nullish v = false ->
  kept (k, v) = negb (String.eqb k "__proto__").
Proof.
  intros Hexc Hnull. unfold kept, copied. cbn [fst snd].
  now rewrite Hexc, Hnull.
Qed.

Lemma extractMetadata_from_exact (entries metadata result : obj) :
  extractMetadata_from entries metadata = Ok result ->
  NoDup (keys entries) ->
  (forall k, In k (keys entries) -> ~ In k (keys metadata)) ->
  enumeration_ordered (keys metadata ++ keys entries) ->
  result = metadata ++ map stored (filter kept entries).
Proof.
  revert metadata.
  induction entries as [| [k0 v0] entries IH];
    intros metadata Hrun Hnd Hfresh Hord;
    cbn [extractMetadata_from negb] in Hrun.
  - injection Hrun as <-. simpl. now rewrite app_nil_r.
  - inversion Hnd as [| x l Hnotin Hnd']; subst.
    assert (Hfresh' : forall k, In k (keys entries) -> ~ In k (keys metadata))
      by (intros k Hin; apply Hfresh; now right).
    assert (Hk0 : ~ In k0 (keys metadata)) by (apply Hfresh; now left).
    assert (Hord' : enumeration_ordered (keys metadata ++ keys entries))
      by (exact (ordered_remove _ _ _ Hord)).
    assert (Hlast : forall k', In k' (keys metadata) -> comes_before k0 k' = false)
      by (exact (ordered_before _ _ _ Hord)).
    assert (Hskip : kept (k0, v0) = false ->
              extractMetadata_from entries metadata = Ok result ->
              result = metadata ++ map stored (filter kept ((k0, v0) :: entries))).
    { intros Hkept Hrun'. cbn [filter]. rewrite Hkept. now apply IH. }
    assert (Hstore : forall x,
              kept (k0, v0) = true ->
              snd (stored (k0, v0)) = x ->
              extractMetadata_from entries (assign k0 x metadata) = Ok result ->
              result = metadata ++ map stored (filter kept ((k0, v0) :: entries))).
    { intros x Hkept Hx Hrun'. cbn [filter]. rewrite Hkept. cbn [map].
      unfold kept in Hkept. apply andb_true_iff in Hkept.
      destruct Hkept as [_ Hproto]. cbn [fst] in Hproto.
      unfold assign in Hrun'. apply negb_true_iff in Hproto.
      rewrite Hproto in Hrun'. rewrite set_fresh in Hrun' by assumption.
      change (stored (k0, v0)) with (k0, snd (stored (k0, v0))). rewrite Hx.
      rewrite (IH _ Hrun' Hnd'), <- app_assoc; [reflexivity | |].
      - intros k Hin Hin'. unfold keys in Hin'. rewrite map_app in Hin'.
        apply in_app_or in Hin'. destruct Hin' as [Hin' | [Heq | []]].
        + now apply (Hfresh' k).
        + simpl in Heq. subst k. contradiction.
      - unfold keys in *. rewrite map_app, <- app_assoc. exact Hord. }
    assert (Hproto : forall x,
              kept (k0, v0) = false -> copied (k0, v0) = true ->
              assign k0 x metadata = metadata).
    { intros x Hkept Hcopied. unfold kept in Hkept. rewrite Hcopied in Hkept.
      cbn [andb fst] in Hkept. apply negb_false_iff in Hkept.
      unfold assign. now rewrite Hkept. }
    destruct (includes excluded_info_keys k0) eqn:Hexc;
      cbn [extractMetadata_from negb] in Hrun.
    { apply Hskip; [| exact Hrun]. unfold kept, copied. cbn [fst snd].
      now rewrite Hexc. }
    destruct (is_nullish v0) eqn:Hnull;
      cbn [extractMetadata_from negb] in Hrun.
    { apply Hskip; [| exact Hrun]. unfold kept, copied. cbn [fst snd].
      now rewrite Hexc, Hnull. }
    assert (Hcopied : copied (k0, v0) = true)
      by (unfold copied; cbn [fst snd]; now rewrite Hexc, Hnull).
    destruct (stored_matches k0 v0 Hnull) as [Hobj Hscalar].
    destruct (kept (k0, v0)) eqn:Hkept.
    + destruct (typeof_object v0).
      * specialize (Hobj eq_refl).
        destruct (stringify v0) as [s | | err]; [| | discriminate];
          now apply (Hstore _ eq_refl Hobj).
      * now apply (Hstore _ eq_refl (Hscalar eq_refl)).
    + destruct (typeof_object v0).
      * destruct (stringify v0) as [s | | err]; [| | discriminate];
          rewrite (Hproto _ eq_refl Hcopied) in Hrun; now apply Hskip.
      * rewrite (Hproto _ eq_refl Hcopied) in Hrun. now apply Hskip.
Qed.

(** X2.  On an object with distinct keys, listed in enumeration order,
    [extractMetadata] returns the stored fields in the order the object
    lists them, one property each: the fields keyed level, message,
    timestamp or __proto__ and the null and undefined ones are left out,
    every other field is there under its own key. *)
Theorem extractMetadata_keeps_field_order :
  forall (info metadata : obj),
    wf_obj info ->
    enumeration_ordered (keys info) ->
    extractMetadata info = Ok metadata ->
    metadata = map stored (filter kept info)
    /\ keys metadata = keys (filter kept info)
    /\ wf_obj metadata.
Proof.
  intros info metadata Hwf Hord Hrun.
  assert (Hexact : metadata = map stored (filter kept info)).
  { apply (extractMetadata_from_exact info [] metadata Hrun Hwf).
    - intros k _ [].
    - exact Hord. }
  split; [exact Hexact |]. split.
  - rewrite Hexact. unfold keys. rewrite map_map. reflexivity.
  - eapply extractMetadata_NoDup; [exact Hrun | constructor].
Qed.

Lemma extractMetadata_keeps_field_order_witness :
  let info := [("7", VNum 1); ("level", VStr "info"); ("message", VStr "m");
               ("__proto__", VStr "p"); ("user", VNull); ("b", VBool true)] in
  wf_obj info
  /\ enumeration_ordered (keys info)
  /\ extractMetadata info = Ok [("7", VStr "1"); ("b", VStr "true")]
  /\ keys [("7", VStr "1"); ("b", VStr "true")] = keys (filter kept info).
Proof.
  intros info.
  assert (Hwf : wf_obj info).
  { unfold wf_obj, info. cbn.
    repeat (constructor; [cbn; intuition discriminate |]). constructor. }
  assert (Hord : enumeration_ordered (keys info)).
  { cbn. repeat split; intros k' Hin;
      repeat (destruct Hin as [<- | Hin]; [reflexivity |]); contradiction. }
  assert (Hrun : extractMetadata info = Ok [("7", VStr "1"); ("b", VStr "true")])
    by reflexivity.
  split; [exact Hwf |]. split; [exact Hord |]. split; [exact Hrun |].
  exact (proj1 (proj2 (extractMetadata_keeps_field_order info _ Hwf Hord Hrun))).
Defined.

(** *** The record of an accepted event *)

Lemma spread_disjoint (o src : obj) :
  NoDup (keys src) ->
  (forall k, In k (keys src) -> ~ In k (keys o)) ->
  (forall k, In k (keys src) -> array_index k = None) ->
  spread o src = o ++ src.
Proof.
  unfold spread. revert o.
  induction src as [| [k v] src IH]; intros o Hnd Hfresh Hnamed; simpl.
  - now rewrite app_nil_r.
  - inversion Hnd as [| x l Hnotin Hnd']; subst.
    rewrite set_fresh.
    + rewrite IH; [now rewrite <- app_assoc | exact Hnd' | |].
      * intros k' Hin Hin'. unfold keys in Hin'. rewrite map_app in Hin'.
        apply in_app_or in Hin'. destruct Hin' as [Hin' | [Heq | []]].
        -- apply (Hfresh k'); [now right | exact Hin'].
        -- simpl in Heq. subst k'. contradiction.
      * intros k' Hin. apply Hnamed. now right.
    + apply Hfresh. now left.
    + intros k' _. unfold comes_before.
      now rewrite (Hnamed k (or_introl eq_refl)).
Qed.

Lemma filter_all {A : Type} (f : A -> bool) (l : list A) :
  (forall x, In x l -> f x = true) -> filter f l = l.
Proof.
  induction l as [| x l IH]; intros Hall; simpl; [reflexivity |].
  rewrite (Hall x (or_introl eq_refl)), IH; [reflexivity |].
  intros y Hy. apply Hall. now right.
Qed.

Lemma kept_key_not_excluded (info : obj) (k : string) :
  In k (keys (filter kept info)) ->
  In k (keys info) /\ includes excluded_info_keys k = false.
Proof.
  unfold keys. intros Hin. apply in_map_iff in Hin.
  destruct Hin as ([k' v] & <- & Hin). apply filter_In in Hin.
  destruct Hin as [Hin Hkept]. unfold kept, copied in Hkept. cbn [fst snd] in *.
  apply andb_true_iff in Hkept. destruct Hkept as [Hcopied _].
  apply andb_true_iff in Hcopied. destruct Hcopied as [Hexc _]. split.
  - change k' with (fst (k', v)). now apply in_map.
  - now destruct (includes excluded_info_keys k').
Qed.

Lemma named_keys_ordered (l : list string) :
  (forall k, In k l -> array_index k = None) -> enumeration_ordered l.
Proof.
  induction l as [| k l IH]; intros Hnamed; simpl; [exact I |]. split.
  - intros k' Hin. unfold comes_before.
    now rewrite (Hnamed k' (or_intror Hin)).
  - apply IH. intros k' Hin. apply Hnamed. now right.
Qed.

(** X3.  For an event with distinct keys, none of them an array index and
    none of them service, logger or p_timestamp, the attributes of its
    record are the transport's two stamps, service and logger, followed by
    one attribute for each stored field, in the order of the fields of the
    event. *)
Theorem attributes_follow_field_order :
  forall (info : obj) (now : string) (e : LogEntry),
    wf_obj info ->
    logEntry_of info now = Ok e ->
    (forall k, In k (keys info) -> array_index k = None) ->
    ~ In "service" (keys info) ->
    ~ In "logger" (keys info) ->
    ~ In "p_timestamp" (keys info) ->
    attributes (logRecord_of e)
    = {| key := "service"; stringValue := "n8n-comprehensive" |}
      :: {| key := "logger"; stringValue := "winston" |}
      :: map (fun kv => attribute_of (stored kv)) (filter kept info).
Proof.
  intros info now e Hwf Hrun Hnamed Hservice Hlogger Hts.
  destruct (logEntry_of_inv info now e Hrun) as (level & md & _ & Hmd & Hnd & ->).
  assert (Hexact : md = map stored (filter kept info)).
  { apply (extractMetadata_from_exact info [] md Hmd Hwf).
    - intros k _ [].
    - now apply named_keys_ordered. }
  assert (Hkeys : keys md = keys (filter kept info)).
  { rewrite Hexact. unfold keys. rewrite map_map. reflexivity. }
  assert (Hfresh : forall k, In k (keys md) ->
            In k (keys info) /\ includes excluded_info_keys k = false).
  { intros k Hin. rewrite Hkeys in Hin. now apply kept_key_not_excluded. }
  rewrite spread_disjoint.
  - cbn [attributes logRecord_of]. rewrite filter_app, map_app.
    match goal with
    | |- map _ (filter ?f ?base) ++ _ = _ =>
        change (filter f base)
          with [("service", VStr "n8n-comprehensive"); ("logger", VStr "winston")]
    end.
    cbn [map app]. do 2 f_equal.
    rewrite filter_all.
    + rewrite Hexact, map_map. reflexivity.
    + intros [k v] Hin. cbn [fst].
      assert (Hk : In k (keys md)) by (eapply In_keys; eauto).
      destruct (Hfresh k Hk) as [Hinfo Hexc].
      apply includes_false in Hexc.
      assert (Hnot : ~ In k excluded_entry_keys).
      { cbn in *. intros [<- | [<- | [<- | []]]]; intuition. }
      apply includes_false in Hnot. now rewrite Hnot.
  - exact Hnd.
  - intros k Hk Hbase. destruct (Hfresh k Hk) as [Hinfo Hexc].
    apply includes_false in Hexc. cbn in Hbase, Hexc.
    destruct Hbase as [<- | [<- | [<- | [<- | [<- | []]]]]]; intuition.
  - intros k Hk. apply Hnamed. now apply (Hfresh k).
Qed.

Lemma attributes_follow_field_order_witness :
  let info := Samples.boom None in
  wf_obj info
  /\ logEntry_of info "t" = Ok (Samples.boom_entry "t")
  /\ (forall k, In k (keys info) -> array_index k = None)
  /\ ~ In "service" (keys info)
  /\ attributes (logRecord_of (Samples.boom_entry "t"))
     = [{| key := "service"; stringValue := "n8n-comprehensive" |};
        {| key := "logger"; stringValue := "winston" |};
        {| key := "code"; stringValue := "42" |};
        {| key := "nested"; stringValue := Samples.nested_text |}].
Proof.
  intros info.
  assert (Hwf : wf_obj info).
  { unfold wf_obj, info. cbn.
    repeat (constructor; [cbn; intuition discriminate |]). constructor. }
  assert (Hrun : logEntry_of info "t" = Ok (Samples.boom_entry "t")) by reflexivity.
  assert (Hnamed : forall k, In k (keys info) -> array_index k = None).
  { intros k Hin. cbn in Hin.
    repeat (destruct Hin as [<- | Hin]; [reflexivity |]). contradiction. }
  assert (Hs : ~ In "service" (keys info)) by (cbn; intuition discriminate).
  assert (Hl : ~ In "logger" (keys info)) by (cbn; intuition discriminate).
  assert (Hp : ~ In "p_timestamp" (keys info)) by (cbn; intuition discriminate).
  split; [exact Hwf |]. split; [exact Hrun |]. split; [exact Hnamed |].
  split; [exact Hs |].
  exact (attributes_follow_field_order info "t" _ Hwf Hrun Hnamed Hs Hl Hp).
Defined.

(** X4.  No field of the event can change the severity or the body of its
    record: the severity text is the upper-cased level and the body is the
    message as the event has it, converted by nothing.  The time of the
    record is taken from the clock, unless the event has a field named
    p_timestamp that is neither null nor undefined, whose string then
    takes the clock's place. *)
Theorem severity_body_and_time :
  forall (info : obj) (now : string) (e : LogEntry),
    logEntry_of info now = Ok e ->
    (exists level,
       get "level" info = Some (VStr level)
       /\ severityText (logRecord_of e) = VStr (toUpperCase level))
    /\ body_stringValue (logRecord_of e) = prop "message" info
    /\ ((forall v, In ("p_timestamp", v) info -> is_nullish v = true) ->
        timeUnixNano (logRecord_of e) = UnixNanoOf (VStr now))
    /\ (forall v, wf_obj info -> In ("p_timestamp", v) info ->
          is_nullish v = false ->
          exists s, field_text v = Some s
                    /\ timeUnixNano (logRecord_of e) = UnixNanoOf (VStr s)).
Proof.
  intros info now e Hrun.
  destruct (logEntry_of_inv info now e Hrun) as (level & md & Hlevel & Hmd & Hnd & ->).
  assert (Hskip : forall k, includes excluded_info_keys k = true -> get k md = None).
  { intros k Hexc.
    rewrite (extractMetadata_skips k info [] md Hmd); [reflexivity |].
    intros v _. now left. }
  cbn [severityText body_stringValue timeUnixNano logRecord_of].
  split; [| split; [| split]].
  - unfold upper_level in Hlevel.
    destruct (get "level" info) as [[| | | | | s | |] |]; try discriminate.
    injection Hlevel as <-. exists s. split; [reflexivity |].
    unfold prop. rewrite get_spread_absent by (now apply Hskip). reflexivity.
  - unfold prop at 1.
    rewrite get_spread_absent by (now apply Hskip). reflexivity.
  - intros Hnull. unfold prop. rewrite get_spread_absent; [reflexivity |].
    rewrite (extractMetadata_skips "p_timestamp" info [] md Hmd); [reflexivity |].
    intros v Hin. right. auto.
  - intros v Hwf Hin Hnull.
    assert (Hproto : "p_timestamp"%string <> "__proto__"%string) by discriminate.
    destruct (extractMetadata_stores "p_timestamp" v info [] md Hmd Hwf Hin
                eq_refl Hproto Hnull) as (s & Htext & Hget).
    exists s. split; [exact Htext |].
    unfold prop. now rewrite (get_spread_present "p_timestamp" (VStr s)).
Qed.

Lemma severity_body_and_time_witness :
  let e := [("p_timestamp", VStr "noon"); ("level", VStr "INFO");
            ("message", VStr "m"); ("service", VStr "n8n-comprehensive");
            ("logger", VStr "winston")] in
  logEntry_of Samples.with_p_timestamp "t" = Ok e
  /\ wf_obj Samples.with_p_timestamp
  /\ In ("p_timestamp", VStr "noon") Samples.with_p_timestamp
  /\ exists s, field_text (VStr "noon") = Some s
               /\ timeUnixNano (logRecord_of e) = UnixNanoOf (VStr s).
Proof.
  intros e.
  assert (Hrun : logEntry_of Samples.with_p_timestamp "t" = Ok e) by reflexivity.
  assert (Hwf : wf_obj Samples.with_p_timestamp).
  { unfold wf_obj. cbn.
    repeat (constructor; [cbn; intuition discriminate |]). constructor. }
  assert (Hin : In ("p_timestamp", VStr "noon") Samples.with_p_timestamp)
    by (cbn; auto).
  split; [exact Hrun |]. split; [exact Hwf |]. split; [exact Hin |].
  exact (proj2 (proj2 (proj2
           (severity_body_and_time Samples.with_p_timestamp "t" e Hrun)))
           (VStr "noon") Hwf Hin eq_refl).
Defined.

(** *** What every reachable state keeps *)

Lemma exec_configuration (a : action) (t : Transport) :
  streamName (exec a t) = streamName t
  /\ batchSize (exec a t) = batchSize t
  /\ flushInterval (exec a t) = flushInterval t.
Proof.
  destruct a as [info now | | i o | |]; simpl.
  - unfold log. destruct (logEntry_of info now) as [e | err]; simpl; [| auto].
    destruct (_ <=? _); [| auto].
    unfold flush_drain. simpl. now destruct (batch t ++ [e]).
  - destruct (timer t); [| auto]. unfold on_interval.
    destruct (_ <? _); [| auto].
    unfold flush_drain. now destruct (batch t).
  - destruct (nth_error (pending t) i); [| auto].
    unfold flush_settle. destruct (resolves o); [simpl; auto |].
    simpl. now destruct (_ <? _).
  - unfold flush_drain. now destruct (batch t).
  - unfold close. destruct (timer t); simpl;
      (destruct (_ <? _); [| auto]); unfold flush_drain; simpl;
      now destruct (batch t).
Qed.

(** A property of the constructed transport that every action keeps holds
    in every state the transport reaches. *)
Lemma reachable_invariant (P : Transport -> Prop) (opts : Options) :
  P (new_transport opts) ->
  (forall a t, P t -> P (exec a t)) ->
  forall acts, P (run acts (new_transport opts)).
Proof.
  intros Hinit Hstep acts. unfold run.
  revert Hinit. generalize (new_transport opts).
  induction acts as [| a acts IH]; intros t Ht; simpl; [exact Ht |].
  apply IH, Hstep, Ht.
Qed.

Lemma constructed_configuration (opts : Options) (acts : list action) :
  batchSize (run acts (new_transport opts)) = number_or (opt_batchSize opts) 5
  /\ flushInterval (run acts (new_transport opts))
     = number_or (opt_flushInterval opts) 3000
  /\ streamName (run acts (new_transport opts))
     = string_or (opt_streamName opts) "n8n-logs"
  /\ maxRetries (run acts (new_transport opts)) = 3.
Proof.
  apply (reachable_invariant
           (fun t => batchSize t = number_or (opt_batchSize opts) 5
                     /\ flushInterval t = number_or (opt_flushInterval opts) 3000
                     /\ streamName t = string_or (opt_streamName opts) "n8n-logs"
                     /\ maxRetries t = 3)); [simpl; auto |].
  intros a t (Hb & Hf & Hs & Hm).
  destruct (exec_configuration a t) as (Hs' & Hb' & Hf').
  rewrite Hs', Hb', Hf', exec_maxRetries. auto.
Qed.

Lemma number_or_nonzero (x : option nat) (d : nat) :
  d <> 0 -> number_or x d <> 0.
Proof.
  intros Hd. destruct x as [[| n] |]; simpl; auto.
Qed.

(** X5.  The configuration of a transport is what the constructor made of
    the options and never changes: a batch size or flush interval of 0, like
    one left out, gives the default (5 events, 3000 ms), so neither is ever
    0; an empty stream name gives "n8n-logs", so the name is never empty;
    and the retry limit is 3 whatever the options say. *)
Theorem configuration_is_fixed :
  forall (opts : Options) (acts : list action),
    let t := run acts (new_transport opts) in
    batchSize t = number_or (opt_batchSize opts) 5
    /\ flushInterval t = number_or (opt_flushInterval opts) 3000
    /\ streamName t = string_or (opt_streamName opts) "n8n-logs"
    /\ maxRetries t = 3
    /\ (opt_batchSize opts = Some 0 -> batchSize t = 5)
    /\ batchSize t <> 0
    /\ flushInterval t <> 0
    /\ streamName t <> EmptyString.
Proof.
  intros opts acts t.
  destruct (constructed_configuration opts acts) as (Hb & Hf & Hs & Hm).
  fold t in Hb, Hf, Hs, Hm. rewrite Hb, Hf, Hs, Hm.
  repeat split.
  - now intros ->.
  - apply number_or_nonzero. discriminate.
  - apply number_or_nonzero. discriminate.
  - destruct (opt_streamName opts) as [[| c s'] |]; simpl; discriminate.
Qed.

(** X6.  The retry counter of a transport never exceeds 3, whatever
    happens to it. *)
Theorem retry_counter_at_most_three :
  forall (opts : Options) (acts : list action),
    retryCount (run acts (new_transport opts)) <= 3.
Proof.
  intros opts acts.
  apply (reachable_invariant
           (fun t => retryCount t <= 3 /\ maxRetries t = 3)); [simpl; lia |].
  intros a t [Hle Hmax].
  rewrite exec_maxRetries. split; [| exact Hmax].
  rewrite <- Hmax, <- (exec_maxRetries a t). apply exec_bounded. lia.
Qed.

(** X7.  When a [log] call returns, the batch is empty or fails the size
    test, its length being below [batchSize]: a batch that passes the
    test, be it through entries put back, is drained before the call
    returns. *)
Theorem log_leaves_batch_below_batchSize :
  forall (info : obj) (now : string) (t t' : Transport),
    log info now t = Ok t' ->
    batch t' = []
    \/ (batchSize t' <=? List.length (batch t')) = false.
Proof.
  intros info now t t' Hlog. unfold log in Hlog.
  destruct (logEntry_of info now) as [e | err]; cbn [bind] in Hlog; [| discriminate].
  injection Hlog as <-.
  rewrite flush_drain_nonempty by (simpl; now destruct (batch t)).
  cbn [batch batchSize push with_batch with_sinceDrain with_sent with_pending].
  destruct (batchSize t <=? List.length (batch t ++ [e])) eqn:Hfull.
  - left. reflexivity.
  - right. simpl. exact Hfull.
Qed.

Lemma log_leaves_batch_below_batchSize_witness :
  let t := run (Samples.feed 1 1) Samples.fresh in
  log (Samples.event 2) "t" t = Ok (push (Samples.entry 2 "t") t)
  /\ (batch (push (Samples.entry 2 "t") t) = []
      \/ (batchSize (push (Samples.entry 2 "t") t)
          <=? List.length (batch (push (Samples.entry 2 "t") t))) = false).
Proof.
  intros t.
  assert (Hlog : log (Samples.event 2) "t" t = Ok (push (Samples.entry 2 "t") t))
    by (vm_compute; reflexivity).
  split; [exact Hlog |].
  exact (log_leaves_batch_below_batchSize (Samples.event 2) "t" t _ Hlog).
Defined.

(** *** Requests *)

Lemma requests_well_formed_step (a : action) (t : Transport) :
  requests_well_formed t -> requests_well_formed (exec a t).
Proof.
  intros [Hpend Hsent].
  destruct (exec_configuration a t) as (Hname & _ & _).
  unfold requests_well_formed. rewrite Hname.
  destruct (exec_cases a t)
    as [(logs & Hne & _ & Hs & Hp & _) | (Hs & r & _ & _ & _ & Hp)].
  - rewrite Hs, Hp. split.
    + intros snap Hin. apply in_app_or in Hin. destruct Hin as [Hin | [<- | []]].
      * destruct (Hpend snap Hin) as [Hsnap Hreq].
        split; [exact Hsnap | apply in_or_app; now left].
      * split; [exact Hne | apply in_or_app; right; now left].
    + intros req Hin. apply in_app_or in Hin. destruct Hin as [Hin | [<- | []]].
      * now apply Hsent.
      * cbn. repeat split. now destruct logs.
  - rewrite Hs. split.
    + intros snap Hin. apply Hpend, Hp, Hin.
    + exact Hsent.
Qed.

(** X8.  In every state a transport reaches, no request sent is empty, each
    goes to the path /v1/logs with the log source otel-logs under the
    transport's stream name, and every send still pending has a non-empty
    snapshot whose request is among those sent. *)
Theorem requests_are_well_formed :
  forall (opts : Options) (acts : list action),
    requests_well_formed (run acts (new_transport opts)).
Proof.
  intros opts acts.
  apply (reachable_invariant requests_well_formed).
  - split; intros x [].
  - apply requests_well_formed_step.
Qed.

Lemma accounted_weaken (known more : list LogEntry) (t : Transport) :
  accounted known t -> accounted (known ++ more) t.
Proof.
  intros (Hb & Hp & Hs). repeat split.
  - intros e Hin. apply in_or_app. left. auto.
  - intros snap e Hsnap Hin. apply in_or_app. left. eauto.
  - intros r rec Hr Hrec. destruct (Hs r rec Hr Hrec) as (e & He & ->).
    exists e. split; [apply in_or_app; now left | reflexivity].
Qed.

Lemma accounted_step (known : list LogEntry) (a : action) (t : Transport) :
  accounted known t -> accounted (known ++ accepted [a]) (exec a t).
Proof.
  intros Hacc.
  pose proof (accounted_weaken known (accepted [a]) t Hacc) as (Hb & Hp & Hs).
  assert (Hnew : forall e, In e (batch t ++ accepted [a]) ->
            In e (known ++ accepted [a])).
  { intros e Hin. apply in_app_or in Hin. destruct Hin as [Hin | Hin].
    - auto.
    - apply in_or_app. now right. }
  unfold accounted.
  destruct (exec_cases a t)
    as [(logs & _ & Hlogs & Hs' & Hp' & Hb' & _)
       | (Hs' & r & Hb' & _ & Hr & Hp')].
  - rewrite Hs', Hp', Hb'. subst logs. repeat split.
    + intros e [].
    + intros snap e Hsnap Hin. apply in_app_or in Hsnap.
      destruct Hsnap as [Hsnap | [<- | []]]; eauto.
    + intros req rec Hreq Hrec. apply in_app_or in Hreq.
      destruct Hreq as [Hreq | [<- | []]]; [eauto |].
      cbn in Hrec. apply in_map_iff in Hrec. destruct Hrec as (e & <- & He).
      exists e. split; [auto | reflexivity].
  - rewrite Hs', Hb'. repeat split.
    + intros e Hin. apply in_app_or in Hin. destruct Hin as [Hin | Hin]; [| auto].
      destruct (Hr e Hin) as (snap & Hsnap & He).
      apply slice_last_incl in He. eauto.
    + intros snap e Hsnap Hin. eauto.
    + exact Hs.
Qed.

Lemma accounted_run (known : list LogEntry) (acts : list action) (t : Transport) :
  accounted known t -> accounted (known ++ accepted acts) (run acts t).
Proof.
  revert known t. induction acts as [| a acts IH]; intros known t Hacc.
  - simpl. now rewrite app_nil_r.
  - change (run (a :: acts) t) with (run acts (exec a t)).
    rewrite accepted_cons, app_assoc. apply IH, accounted_step, Hacc.
Qed.

(** X9.  A transport never sends what it was not given: every record of
    every request it has sent, like every entry waiting in the batch or in
    the snapshot of a pending send, is the record of an entry some [log]
    call accepted. *)
Theorem only_accepted_entries_are_sent :
  forall (opts : Options) (acts : list action),
    accounted (accepted acts) (run acts (new_transport opts)).
Proof.
  intros opts acts.
  apply (accounted_run [] acts (new_transport opts)).
  repeat split; simpl; intros; contradiction.
Qed.

(** *** Delivery *)

Lemma records_sent_snoc (t t' : Transport) (name : string) (logs : list LogEntry) :
  sent t' = sent t ++ [otlpRequest name logs] ->
  records_sent t' = records_sent t ++ map logRecord_of logs.
Proof.
  intros Hs. unfold records_sent. rewrite Hs, map_app, concat_app. simpl.
  now rewrite app_nil_r.
Qed.

Lemma delivery_step (a : action) (t : Transport) :
  requeued_by a t = [] ->
  records_sent (exec a t) ++ map logRecord_of (batch (exec a t))
  = records_sent t ++ map logRecord_of (batch t ++ accepted [a]).
Proof.
  intros Hnone.
  destruct (exec_cases a t)
    as [(logs & _ & Hlogs & Hs & _ & Hb & _) | (Hs & _)].
  - rewrite (records_sent_snoc t (exec a t) _ logs Hs), Hb, <- Hlogs.
    simpl. now rewrite app_nil_r.
  - rewrite (exec_batch a t Hs), Hnone. unfold records_sent. now rewrite Hs.
Qed.

Lemma delivery_run (acts : list action) (t : Transport) :
  no_failure acts = true ->
  records_sent (run acts t) ++ map logRecord_of (batch (run acts t))
  = records_sent t ++ map logRecord_of (batch t ++ accepted acts).
Proof.
  revert t. induction acts as [| a acts IH]; intros t Hall.
  - simpl. now rewrite app_nil_r.
  - destruct (requeued_by_no_failure a acts t Hall) as [Hnone Hrest].
    change (run (a :: acts) t) with (run acts (exec a t)).
    rewrite (accepted_cons a acts).
    rewrite (IH _ Hrest), !map_app, app_assoc, (delivery_step a t Hnone).
    rewrite !map_app, <- !app_assoc. reflexivity.
Qed.

(** X10.  As long as no send fails, nothing is lost, doubled or reordered:
    the records of the requests sent so far, followed by the records of the
    entries still in the batch, are the records of the accepted events, one
    each and in the order of the [log] calls.  After a [close] at the end
    the batch is empty and the requests hold them all. *)
Theorem delivery_in_order_without_failure :
  forall (opts : Options) (acts : list action),
    no_failure acts = true ->
    let t := run acts (new_transport opts) in
    records_sent t ++ map logRecord_of (batch t) = map logRecord_of (accepted acts)
    /\ records_sent (close t) = map logRecord_of (accepted acts)
    /\ batch (close t) = [].
Proof.
  intros opts acts Hall t.
  assert (Hrun : records_sent t ++ map logRecord_of (batch t)
                 = map logRecord_of (accepted acts))
    by (unfold t; now rewrite delivery_run).
  split; [exact Hrun |].
  assert (Hclose : no_failure (acts ++ [AClose]) = true).
  { unfold no_failure in *. rewrite forallb_app, Hall. reflexivity. }
  pose proof (delivery_run (acts ++ [AClose]) (new_transport opts) Hclose) as Hend.
  unfold run in Hend. rewrite fold_left_app in Hend. cbn [fold_left exec] in Hend.
  fold (run acts (new_transport opts)) in Hend. fold t in Hend.
  assert (Hempty : batch (close t) = []).
  { unfold close. destruct (timer t); simpl;
      destruct (batch t) eqn:Hb; simpl; unfold flush_drain; simpl;
      rewrite ?Hb; reflexivity. }
  split; [| exact Hempty].
  rewrite Hempty in Hend. simpl in Hend. rewrite app_nil_r in Hend.
  rewrite Hend. f_equal.
  clear. induction acts as [| a acts IH]; [reflexivity |].
  rewrite <- app_comm_cons, (accepted_cons a (acts ++ [AClose])),
    (accepted_cons a acts), IH.
  reflexivity.
Qed.

Lemma delivery_in_order_without_failure_witness :
  let acts := Samples.feed 1 4 ++ [ASettle 0 (Response 200); ATick] in
  no_failure acts = true
  /\ records_sent (run acts Samples.fresh)
     ++ map logRecord_of (batch (run acts Samples.fresh))
     = map logRecord_of (accepted acts).
Proof.
  intros acts.
  assert (Hall : no_failure acts = true) by reflexivity.
  split; [exact Hall |].
  exact (proj1 (delivery_in_order_without_failure n8n_options acts Hall)).
Defined.

(** X11.  Once the retry counter has reached [maxRetries], failures change
    nothing any more: however many sends fail from then on, none of their
    snapshots is put back and the counter stays where it is, until a send
    succeeds. *)
Theorem exhausted_budget_drops_every_failure :
  forall (sends : list (outcome * list LogEntry)) (t : Transport),
    maxRetries t <= retryCount t ->
    Forall (fun s => resolves (fst s) = false) sends ->
    settle_all sends t = t.
Proof.
  intros sends t Hge Hall. unfold settle_all.
  induction Hall as [| [o l] sends Ho Hall IH]; [reflexivity |].
  simpl in *. rewrite flush_settle_exhausted by assumption. exact IH.
Qed.

Lemma exhausted_budget_drops_every_failure_witness :
  maxRetries Samples.exhausted <= retryCount Samples.exhausted
  /\ settle_all [(NetworkError, Samples.entries 1 3);
                 (Response 500, Samples.entries 4 2)] Samples.exhausted
     = Samples.exhausted.
Proof.
  assert (Hge : maxRetries Samples.exhausted <= retryCount Samples.exhausted)
    by (vm_compute; lia).
  split; [exact Hge |].
  apply (exhausted_budget_drops_every_failure _ Samples.exhausted Hge).
  repeat constructor.
Defined.

(** X12.  Closing twice is closing once: a second [close] finds the timer
    off and the batch empty and changes nothing. *)
Theorem close_is_idempotent :
  forall (t : Transport), close (close t) = close t.
Proof.
  intros t. unfold close at 1.
  assert (Hb : batch (close t) = []).
  { unfold close. destruct (timer t); simpl;
      destruct (batch t) eqn:Hb; simpl; unfold flush_drain; simpl;
      rewrite ?Hb; reflexivity. }
  rewrite close_timer, Hb. reflexivity.
Qed.

(** X13.  The end of a send never removes anything from the batch and adds
    at most three entries, at its front: the batch as it was is kept as the
    tail, and a send that succeeds adds nothing. *)
Theorem settle_grows_batch_by_at_most_three :
  forall (o : outcome) (logsToSend : list LogEntry) (t : Transport),
    exists front,
      batch (flush_settle o logsToSend t) = front ++ batch t
      /\ List.length front <= 3
      /\ (forall e, In e front -> In e logsToSend)
      /\ (resolves o = true -> front = []).
Proof.
  intros o logsToSend t. unfold flush_settle.
  destruct (resolves o) eqn:Ho.
  - exists []. simpl. repeat split; auto. intros e [].
  - destruct (retryCount t <? maxRetries t).
    + exists (slice_last 3 logsToSend). simpl. repeat split.
      * rewrite slice_last_length. lia.
      * intros e. apply slice_last_incl.
      * discriminate.
    + exists []. simpl. repeat split; auto. intros e [].
Qed.

(** *** When log throws *)

Section ValueInduction.

Variable P : value -> Prop.
Hypothesis P_null : P VNull.
Hypothesis P_undefined : P VUndefined.
Hypothesis P_bool : forall b, P (VBool b).
Hypothesis P_num : forall z, P (VNum z).
Hypothesis P_bigint : forall z, P (VBigInt z).
Hypothesis P_str : forall s, P (VStr s).
Hypothesis P_arr : forall vs, Forall P vs -> P (VArr vs).
Hypothesis P_obj : forall kvs, Forall (fun kv => P (snd kv)) kvs -> P (VObj kvs).

(** Induction on a value with its elements and property values. *)
Fixpoint value_nested_ind (v : value) : P v :=
  match v with
  | VNull => P_null
  | VUndefined => P_undefined
  | VBool b => P_bool b
  | VNum z => P_num z
  | VBigInt z => P_bigint z
  | VStr s => P_str s
  | VArr vs =>
      P_arr vs
        ((fix all (l : list value) : Forall P l :=
            match l with
            | [] => Forall_nil P
            | e :: l' => Forall_cons e (value_nested_ind e) (all l')
            end) vs)
  | VObj kvs =>
      P_obj kvs
        ((fix all (l : list (string * value))
            : Forall (fun kv => P (snd kv)) l :=
            match l with
            | [] => Forall_nil _
            | kv :: l' =>
                Forall_cons kv (value_nested_ind (snd kv)) (all l')
            end) kvs)
  end.

End ValueInduction.

(** [JSON.stringify] throws on the values with a BigInt inside, and on no
    others. *)
Lemma stringify_throws (v : value) :
  (has_bigint v = true -> exists err, stringify v = JThrow err)
  /\ (has_bigint v = false -> forall err, stringify v <> JThrow err).
Proof.
  induction v using value_nested_ind;
    try (split; [discriminate | intros _ err; simpl; try destruct b; discriminate]).
  - split; [intros _; eexists; reflexivity | discriminate].
  - simpl.
    match goal with
    | |- (?any vs = true -> _) /\ _ =>
        match goal with
        | |- context [match ?elems vs with Ok _ => _ | Throw _ => _ end] =>
            assert (Hlist :
              (any vs = true -> exists err, elems vs = Throw err)
              /\ (any vs = false -> exists parts, elems vs = Ok parts))
        end
    end.
    { induction H as [| e l [Hthrow Hfine] Hall [IHthrow IHfine]].
      - split; [discriminate | eauto].
      - destruct (has_bigint e) eqn:He; cbn [orb].
        + destruct (Hthrow eq_refl) as [err ->]. split; [eauto | discriminate].
        + specialize (Hfine eq_refl). split.
          * intros Hany. destruct (IHthrow Hany) as [err ->].
            destruct (stringify e) as [s | | err']; cbn [bind]; eauto.
          * intros Hany. destruct (IHfine Hany) as [parts ->].
            destruct (stringify e) as [s | | err'] eqn:Hs; cbn [bind]; eauto.
            exfalso. now apply (Hfine err'). }
    destruct Hlist as [Hthrow Hfine]. split.
    + intros Hany. destruct (Hthrow Hany) as [err ->]. eauto.
    + intros Hany err. destruct (Hfine Hany) as [parts ->]. discriminate.
  - simpl.
    match goal with
    | |- (?any kvs = true -> _) /\ _ =>
        match goal with
        | |- context [match ?props kvs with Ok _ => _ | Throw _ => _ end] =>
            assert (Hlist :
              (any kvs = true -> exists err, props kvs = Throw err)
              /\ (any kvs = false -> exists parts, props kvs = Ok parts))
        end
    end.
    { induction H as [| [k e] l [Hthrow Hfine] Hall [IHthrow IHfine]].
      - split; [discriminate | eauto].
      - cbn [snd] in *. destruct (has_bigint e) eqn:He; cbn [orb].
        + destruct (Hthrow eq_refl) as [err ->]. split; [eauto | discriminate].
        + specialize (Hfine eq_refl). split.
          * intros Hany. destruct (IHthrow Hany) as [err ->].
            destruct (stringify e) as [s | | err']; cbn [bind]; eauto.
          * intros Hany. destruct (IHfine Hany) as [parts ->].
            destruct (stringify e) as [s | | err'] eqn:Hs; cbn [bind]; eauto.
            exfalso. now apply (Hfine err'). }
    destruct Hlist as [Hthrow Hfine]. split.
    + intros Hany. destruct (Hthrow Hany) as [err ->]. eauto.
    + intros Hany err. destruct (Hfine Hany) as [parts ->]. discriminate.
Qed.

Lemma serialisable_false_iff (info : obj) :
  serialisable info = false <-> existsb unserialisable_field info = true.
Proof.
  unfold serialisable. induction info as [| [k v] info IH]; cbn [forallb existsb].
  - split; discriminate.
  - unfold unserialisable_field at 1, copied. cbn [fst snd].
    destruct (stringify_throws v) as [Hthrow Hfine].
    destruct (includes excluded_info_keys k); cbn [negb orb andb]; [exact IH |].
    destruct (is_nullish v); cbn [negb orb andb]; [exact IH |].
    destruct (typeof_object v); cbn [negb orb andb]; [| exact IH].
    destruct (has_bigint v).
    + destruct (Hthrow eq_refl) as [err ->]. cbn [andb orb]. tauto.
    + specialize (Hfine eq_refl).
      destruct (stringify v) as [s | | err]; cbn [andb orb]; try exact IH.
      exfalso. now apply (Hfine err).
Qed.

(** X14.  A [log] call throws whenever the level of the event is not a
    string, and whenever one of the fields it converts is an object or an
    array with a BigInt inside, at whatever depth; and a call that throws
    has changed nothing. *)
Theorem log_throws_on_level_or_bigint :
  forall (info : obj) (now : string) (t : Transport),
    has_string_level info = false \/ existsb unserialisable_field info = true ->
    (exists err, log info now t = Throw err)
    /\ exec (ALog info now) t = t.
Proof.
  intros info now t Hbad.
  destruct (logEntry_of_total info now) as [_ Hthrow].
  assert (Hl : loggable info = false).
  { unfold loggable. destruct Hbad as [Hlevel | Hfield].
    - now rewrite Hlevel.
    - apply serialisable_false_iff in Hfield. rewrite Hfield.
      apply andb_false_r. }
  destruct (Hthrow Hl) as [err Herr].
  assert (Hlog : log info now t = Throw err) by (unfold log; now rewrite Herr).
  split; [now exists err |]. simpl. now rewrite Hlog.
Qed.

Lemma log_throws_on_level_or_bigint_witness :
  existsb unserialisable_field Samples.with_bigint = true
  /\ exists err, log Samples.with_bigint "t" Samples.fresh = Throw err.
Proof.
  assert (Hbad : existsb unserialisable_field Samples.with_bigint = true)
    by reflexivity.
  split; [exact Hbad |].
  exact (proj1 (log_throws_on_level_or_bigint Samples.with_bigint "t"
                  Samples.fresh (or_intror Hbad))).
Defined.

(** *** The convenience methods *)

Lemma NoDup_keys_get (o : obj) (k : string) (v : value) :
  NoDup (keys o) -> In (k, v) o -> get k o = Some v.
Proof.
  intros Hnd Hin. destruct (get k o) as [v' |] eqn:Hget.
  - apply get_In in Hget. f_equal. eapply NoDup_keys_functional; eauto.
  - apply get_None_keys in Hget. exfalso. apply Hget. eapply In_keys; eauto.
Qed.

Lemma invoke_meta (c : convenience) (lc : LoggerCall) :
  invoke c = Ok lc ->
  exists fixed,
    call_meta lc = spread fixed (metadata_of c)
    /\ get "event_type" fixed = Some (VStr (event_type_of c)).
Proof.
  destruct c as [w n x m | w n x d m | w n x er d m | w x ty n m
                | w x ty n d m | w x ty n er d m | me u h m | me u st d m];
    cbn [invoke metadata_of event_type_of]; intros Hrun.
  - injection Hrun as <-. eexists. split; reflexivity.
  - injection Hrun as <-. eexists. split; reflexivity.
  - unfold workflow_failed in Hrun.
    destruct (error_member er "message"); [| discriminate].
    destruct (error_member er "name"); [| discriminate].
    destruct (error_member er "stack"); [| discriminate].
    cbn [bind] in Hrun. injection Hrun as <-. eexists. split; reflexivity.
  - injection Hrun as <-. eexists. split; reflexivity.
  - injection Hrun as <-. eexists. split; reflexivity.
  - unfold node_failed in Hrun.
    destruct (error_member er "message"); [| discriminate].
    destruct (error_member er "name"); [| discriminate].
    destruct (error_member er "stack"); [| discriminate].
    cbn [bind] in Hrun. injection Hrun as <-. eexists. split; reflexivity.
  - unfold http_request in Hrun.
    destruct (headers_text h); [| discriminate].
    cbn [bind] in Hrun. injection Hrun as <-. eexists. split; reflexivity.
  - injection Hrun as <-. eexists. split; reflexivity.
Qed.

(** X15.  In the metadata a convenience method hands to the logger, the
    caller's own metadata always wins: each of its properties is there
    with the caller's value, even under a key the method writes itself, and
    the method's event type stands only when the caller's metadata has no
    event_type. *)
Theorem caller_metadata_wins :
  forall (c : convenience) (lc : LoggerCall),
    wf_obj (metadata_of c) ->
    invoke c = Ok lc ->
    (forall k v, In (k, v) (metadata_of c) -> get k (call_meta lc) = Some v)
    /\ (get "event_type" (metadata_of c) = None ->
        get "event_type" (call_meta lc) = Some (VStr (event_type_of c))).
Proof.
  intros c lc Hwf Hrun.
  destruct (invoke_meta c lc Hrun) as (fixed & -> & Htype). split.
  - intros k v Hin. apply get_spread_present; [exact Hwf |].
    now apply NoDup_keys_get.
  - intros Hnone. now rewrite get_spread_absent.
Qed.

Lemma caller_metadata_wins_witness :
  let c := WorkflowStarted (VStr "w1") (VStr "sync") (VNum 7)
             (Some [("event_type", VStr "custom"); ("tenant", VStr "acme")]) in
  wf_obj (metadata_of c)
  /\ invoke c = Ok (workflow_started (VStr "w1") (VStr "sync") (VNum 7)
                      (Some [("event_type", VStr "custom");
                             ("tenant", VStr "acme")]))
  /\ get "event_type"
       (call_meta (workflow_started (VStr "w1") (VStr "sync") (VNum 7)
                     (Some [("event_type", VStr "custom");
                            ("tenant", VStr "acme")])))
     = Some (VStr "custom").
Proof.
  intros c.
  assert (Hwf : wf_obj (metadata_of c)).
  { unfold wf_obj. cbn.
    repeat (constructor; [cbn; intuition discriminate |]). constructor. }
  assert (Hrun : invoke c
                 = Ok (workflow_started (VStr "w1") (VStr "sync") (VNum 7)
                         (Some [("event_type", VStr "custom");
                                ("tenant", VStr "acme")]))) by reflexivity.
  split; [exact Hwf |]. split; [exact Hrun |].
  apply (proj1 (caller_metadata_wins c _ Hwf Hrun)). cbn. auto.
Defined.

(** X16.  The two methods that report a failure read three properties of
    their error argument: called with null or undefined for the error they
    throw and log nothing; called with anything else they log at level
    error, and the error message they record is the message property of an
    object and undefined for any other value, unless the caller's metadata
    has an error_message of its own. *)
Theorem failure_methods_read_the_error :
  forall (c : convenience) (er : value),
    error_of c = Some er ->
    (is_nullish er = true -> exists err, invoke c = Throw err)
    /\ (is_nullish er = false ->
        exists lc,
          invoke c = Ok lc
          /\ call_level lc = "error"%string
          /\ (get "error_message" (metadata_of c) = None ->
              get "error_message" (call_meta lc)
              = Some match er with
                     | VObj kvs => prop "message" kvs
                     | _ => VUndefined
                     end)).
Proof.
  intros c er Herr.
  destruct c as [w n x m | w n x d m | w n x er' d m | w x ty n m
                | w x ty n d m | w x ty n er' d m | me u h m | me u st d m];
    cbn [error_of] in Herr; try discriminate;
    injection Herr as ->; cbn [invoke metadata_of]; split.
  - intros Hnull. unfold workflow_failed.
    destruct er; try discriminate; cbn; eauto.
  - intros Hnull. unfold workflow_failed.
    destruct er; try discriminate; cbn [error_member bind];
      (eexists; split; [reflexivity |]; split; [reflexivity |];
       intros Hnone; cbn [call_meta]; now rewrite get_spread_absent).
  - intros Hnull. unfold node_failed.
    destruct er; try discriminate; cbn; eauto.
  - intros Hnull. unfold node_failed.
    destruct er; try discriminate; cbn [error_member bind];
      (eexists; split; [reflexivity |]; split; [reflexivity |];
       intros Hnone; cbn [call_meta]; now rewrite get_spread_absent).
Qed.

Lemma failure_methods_read_the_error_witness :
  let c := NodeFailed (VStr "w1") (VNum 7) (VStr "http") (VStr "fetch")
             VUndefined (VNum 3) None in
  error_of c = Some VUndefined
  /\ exists err, invoke c = Throw err.
Proof.
  intros c.
  assert (Herr : error_of c = Some VUndefined) by reflexivity.
  split; [exact Herr |].
  exact (proj1 (failure_methods_read_the_error c VUndefined Herr) eq_refl).
Defined.

(** X17.  [http.request] hands the logger its headers as their JSON text:
    headers left out are recorded as the text of the empty object, headers
    that [JSON.stringify] turns into a text are recorded as that text
    (unless the caller's metadata has an http_headers of its own), and
    headers with a BigInt inside make the method throw before it reaches
    the logger. *)
Theorem http_request_records_headers :
  forall (method url : value) (headers : option value) (metadata : option obj),
    (headers = None \/ headers = Some VUndefined ->
     exists lc,
       http_request method url headers metadata = Ok lc
       /\ (get "http_headers" (metadata_or_empty metadata) = None ->
           get "http_headers" (call_meta lc) = Some (VStr "{}")))
    /\ (forall h s,
          headers = Some h ->
          stringify h = JText s ->
          exists lc,
            http_request method url headers metadata = Ok lc
            /\ call_level lc = "info"%string
            /\ (get "http_headers" (metadata_or_empty metadata) = None ->
                get "http_headers" (call_meta lc) = Some (VStr s)))
    /\ (forall h,
          headers = Some h ->
          has_bigint h = true ->
          exists err, http_request method url headers metadata = Throw err).
Proof.
  intros method url headers metadata.
  assert (Hgiven : forall h, h <> VUndefined ->
            headers_text (Some h)
            = match stringify h with
              | JText s => Ok (VStr s)
              | JUndef => Ok VUndefined
              | JThrow e => Throw e
              end).
  { intros h Hne. unfold headers_text. destruct h; congruence. }
  split; [| split].
  - intros Hnone. unfold http_request, headers_text.
    destruct Hnone as [-> | ->]; cbn [stringify bind];
      (eexists; split; [reflexivity |]; intros Hget; cbn [call_meta];
       now rewrite get_spread_absent).
  - intros h s -> Hs.
    assert (Hne : h <> VUndefined) by (intros ->; discriminate).
    unfold http_request. rewrite (Hgiven h Hne), Hs. cbn [bind].
    eexists. split; [reflexivity |]. split; [reflexivity |].
    intros Hget. cbn [call_meta]. now rewrite get_spread_absent.
  - intros h -> Hb.
    assert (Hne : h <> VUndefined) by (intros ->; discriminate).
    destruct (proj1 (stringify_throws h) Hb) as [err Herr].
    exists err. unfold http_request. now rewrite (Hgiven h Hne), Herr.
Qed.

Lemma http_request_records_headers_witness :
  let h := VObj [("accept", VStr "text/plain")] in
  let s := ("{" ++ quote "accept" ++ ":" ++ quote "text/plain" ++ "}")%string in
  stringify h = JText s
  /\ exists lc,
       http_request (VStr "GET") (VStr "/health") (Some h) None = Ok lc
       /\ get "http_headers" (call_meta lc) = Some (VStr s).
Proof.
  intros h s.
  assert (Hs : stringify h = JText s) by reflexivity.
  split; [exact Hs |].
  destruct (proj1 (proj2 (http_request_records_headers (VStr "GET")
                            (VStr "/health") (Some h) None)) h s eq_refl Hs)
    as (lc & Hrun & _ & Hget).
  exists lc. split; [exact Hrun | apply Hget; reflexivity].
Defined.

(** *** The timer *)

Lemma exec_timer (a : action) (t : Transport) :
  timer (exec a t) = timer t && negb (is_close a).
Proof.
  destruct a as [info now | | i o | |]; cbn [is_close negb];
    rewrite ?andb_true_r, ?andb_false_r.
  - simpl. unfold log. destruct (logEntry_of info now) as [e | err]; simpl;
      [| reflexivity].
    destruct (_ <=? _); [| reflexivity].
    unfold flush_drain. simpl. now destruct (batch t ++ [e]).
  - simpl. destruct (timer t) eqn:Ht; [| exact Ht]. unfold on_interval.
    destruct (_ <? _); [| exact Ht].
    unfold flush_drain. now destruct (batch t).
  - simpl. destruct (nth_error (pending t) i); [| reflexivity].
    unfold flush_settle. destruct (resolves o); [reflexivity |].
    now destruct (_ <? _).
  - simpl. unfold flush_drain. now destruct (batch t).
  - apply close_timer.
Qed.

(** X18.  The timer the constructor starts runs until the first [close] and
    never again after it: in a reached state it is on exactly when no
    [close] has been called, and while it is on every tick that finds the
    batch non-empty sends all of it. *)
Theorem timer_runs_until_close :
  forall (opts : Options) (acts : list action),
    let t := run acts (new_transport opts) in
    timer t = negb (existsb is_close acts)
    /\ (timer t = true -> batch t <> [] ->
        batch (exec ATick t) = []
        /\ sent (exec ATick t) = sent t ++ [otlpRequest (streamName t) (batch t)]).
Proof.
  intros opts acts t. split.
  - assert (Hgen : forall t0, timer (run acts t0)
                              = timer t0 && negb (existsb is_close acts)).
    { induction acts as [| a acts IH]; intros t0.
      - simpl. now rewrite andb_true_r.
      - change (run (a :: acts) t0) with (run acts (exec a t0)).
        rewrite IH, exec_timer. cbn [existsb].
        rewrite negb_orb, andb_assoc. reflexivity. }
    unfold t. rewrite Hgen. reflexivity.
  - intros Hon Hne. simpl. rewrite Hon. unfold on_interval.
    destruct (batch t) as [| e b] eqn:Hb; [congruence |]. simpl.
    rewrite flush_drain_nonempty by (rewrite Hb; discriminate).
    simpl. now rewrite Hb.
Qed.

Lemma timer_runs_until_close_witness :
  let t := run (Samples.feed 1 2) Samples.fresh in
  timer t = true
  /\ batch t <> []
  /\ batch (exec ATick t) = [].
Proof.
  intros t.
  assert (Hon : timer t = true) by reflexivity.
  assert (Hne : batch t <> []) by (vm_compute; discriminate).
  split; [exact Hon |]. split; [exact Hne |].
  exact (proj1 (proj2 (timer_runs_until_close n8n_options (Samples.feed 1 2))
                  Hon Hne)).
Defined.

(** *** Further witnesses *)

Lemma configuration_is_fixed_witness :
  let opts := {| opt_streamName := Some EmptyString;
                 opt_batchSize := Some 0;
                 opt_flushInterval := None |} in
  opt_batchSize opts = Some 0
  /\ batchSize (run (Samples.feed 1 7) (new_transport opts)) = 5.
Proof.
  intros opts.
  assert (Hzero : opt_batchSize opts = Some 0) by reflexivity.
  split; [exact Hzero |].
  exact (proj1 (proj2 (proj2 (proj2 (proj2
           (configuration_is_fixed opts (Samples.feed 1 7)))))) Hzero).
Defined.

Lemma settle_grows_batch_by_at_most_three_witness :
  resolves (Response 201) = true
  /\ exists front,
       batch (flush_settle (Response 201) (Samples.entries 1 5) Samples.exhausted)
       = front ++ batch Samples.exhausted
       /\ front = [].
Proof.
  assert (Hok : resolves (Response 201) = true) by reflexivity.
  split; [exact Hok |].
  destruct (settle_grows_batch_by_at_most_three (Response 201)
              (Samples.entries 1 5) Samples.exhausted)
    as (front & Hb & _ & _ & Hnone).
  exists front. split; [exact Hb | exact (Hnone Hok)].
Defined.

